(** * add_widget_target.py: the EhDownloadWidget project patcher

    A shallow embedding of [add_widget_target.py].  The script reads a
    [project.pbxproj] file, threads its text through seventeen calls of
    [str.replace] and writes the result back.  Texts are lists of
    characters; [str.replace] is the left-to-right, non-overlapping
    replacement of Python. *)

From Stdlib Require Import Ascii String.
From stdpp Require Import base list sorting strings gmap.

Abbreviation text := (list ascii).

(** ** Python's [str.replace] on sequences *)

Section Replace.
Context {A : Type} `{EqDecision A}.
Implicit Types (old new s : list A).

(** [starts_with old s] is [s.startswith(old)]. *)
Fixpoint starts_with old s : bool :=
  match old, s with
  | [], _ => true
  | _ :: _, [] => false
  | a :: old', b :: s' => if decide (a = b) then starts_with old' s' else false
  end.

(** The scan of [s.replace(old, new)] for a non-empty [old]: [skip]
    counts the characters of a match that are still to be passed
    over. *)
Fixpoint replace_scan old new (skip : nat) s : list A :=
  match s with
  | [] => []
  | c :: s' =>
      match skip with
      | S k => replace_scan old new k s'
      | O =>
          if starts_with old s
          then new ++ replace_scan old new (length old - 1) s'
          else c :: replace_scan old new 0 s'
      end
  end.

(** [s.replace(old, new)].  With an empty [old] Python puts [new]
    before every character and at the end. *)
Definition replace old new s : list A :=
  match old with
  | [] => new ++ concat (map (fun c => c :: new) s)
  | _ :: _ => replace_scan old new 0 s
  end.

(** [s.count(old)] for a non-empty [old]: the number of matches the
    scan of [replace] meets. *)
Fixpoint count_scan old (skip : nat) s : nat :=
  match s with
  | [] => 0
  | c :: s' =>
      match skip with
      | S k => count_scan old k s'
      | O =>
          if starts_with old s
          then S (count_scan old (length old - 1) s')
          else count_scan old 0 s'
      end
  end.

Definition count old s : nat := count_scan old 0 s.

(** [old in s] *)
Fixpoint contains old s : bool :=
  starts_with old s ||
  match s with
  | [] => false
  | _ :: s' => contains old s'
  end.

(** An occurrence of [q] at index [i] of [d]. *)
Definition occ_at q (d : list A) (i : nat) : Prop :=
  ∀ j, j < length q → d !! (i + j) = q !! j.

Definition occurs q d : Prop := ∃ i, occ_at q d i.

(** [q] occurs in [d] at one index and nowhere else. *)
Definition occurs_once q d : Prop := ∃ i, ∀ j, occ_at q d j ↔ j = i.

End Replace.

(** ** Documents cut into pieces

    To follow a text through the replacements it is cut into pieces:
    the places the script rewrites ([Atom]) and everything in between
    ([Fill]).  The script itself never sees this cut; it is the
    bookkeeping of the proofs. *)

Section Pieces.
Context {A : Type} `{EqDecision A}.
Implicit Types (q x y old new : list A).

Inductive piece : Type :=
| Fill (f : list A)
| Atom (x : list A).

#[global] Instance piece_eq_dec : EqDecision piece.
Proof. solve_decision. Defined.

Definition body (p : piece) : list A :=
  match p with Fill f => f | Atom x => x end.

Definition render (ps : list piece) : list A := concat (map body ps).

Fixpoint atoms (ps : list piece) : list (list A) :=
  match ps with
  | [] => []
  | Fill _ :: ps' => atoms ps'
  | Atom x :: ps' => x :: atoms ps'
  end.

Fixpoint fill_length (ps : list piece) : nat :=
  match ps with
  | [] => 0
  | Fill f :: ps' => length f + fill_length ps'
  | Atom _ :: ps' => fill_length ps'
  end.

(** Start index and content of every atom of the text that starts at
    index [o]. *)
Fixpoint spans_from (o : nat) (ps : list piece) : list (nat * list A) :=
  match ps with
  | [] => []
  | Fill f :: ps' => spans_from (o + length f) ps'
  | Atom x :: ps' => (o, x) :: spans_from (o + length x) ps'
  end.

Definition spans (ps : list piece) : list (nat * list A) := spans_from 0 ps.

(** The [n] characters from index [i] on lie inside one atom. *)
Definition in_atom (ps : list piece) (i n : nat) : Prop :=
  ∃ st x, (st, x) ∈ spans ps ∧ st ≤ i ∧ i + n ≤ st + length x.

(** Every occurrence of [q] in the text lies inside one atom. *)
Definition sep q (ps : list piece) : Prop :=
  ∀ i, occ_at q (render ps) i → in_atom ps i (length q).

(** The effect of [replace old new] on the atoms. *)
Definition subst_text old new x : list A :=
  if decide (x = old) then new else x.

Definition subst_piece old new (p : piece) : piece :=
  match p with
  | Fill f => Fill f
  | Atom x => Atom (subst_text old new x)
  end.

(** The cut of [s], which starts at index [o], that has the atoms
    [occs], given by start index and content in ascending order. *)
Fixpoint build (o : nat) (occs : list (nat * list A)) (s : list A) : list piece :=
  match occs with
  | [] => [Fill s]
  | (i, x) :: occs' =>
      Fill (take (i - o) s) :: Atom x
      :: build (i + length x) occs' (drop (i - o + length x) s)
  end.

Definition starts_before (a b : nat * list A) : Prop := a.1 ≤ b.1.
Definition ends_before (a b : nat * list A) : Prop := a.1 + length a.2 ≤ b.1.
Definition apart (a b : nat * list A) : Prop := ends_before a b ∨ ends_before b a.

(** Cutting every atom into smaller atoms. *)
Definition expand (cut : list A → list (list A)) (p : piece) : list piece :=
  match p with
  | Fill f => [Fill f]
  | Atom x => Atom <$> cut x
  end.

Definition refine (cut : list A → list (list A)) (ps : list piece) : list piece :=
  ps ≫= expand cut.

(** *** Decision procedures on concrete texts *)

(** All indices at which [q] occurs in [d], counted from [o]. *)
Fixpoint positions_from (o : nat) q (d : list A) : list nat :=
  (if starts_with q d then [o] else []) ++
  match d with
  | [] => []
  | _ :: d' => positions_from (S o) q d'
  end.

Definition positions q (d : list A) : list nat := positions_from 0 q d.

(** [x] and [y] are equal as far as both reach. *)
Fixpoint agree x y : bool :=
  match x, y with
  | a :: x', b :: y' => if decide (a = b) then agree x' y' else false
  | _, _ => true
  end.

(** [y.endswith(x)] *)
Definition ends_with x y : bool :=
  bool_decide (length x ≤ length y) &&
  bool_decide (drop (length y - length x) y = x).

(** [x] is [y] with some elements left out. *)
Fixpoint subseq {B : Type} `{EqDecision B} (x y : list B) : bool :=
  match x, y with
  | [], _ => true
  | _ :: _, [] => false
  | a :: x', b :: y' => if decide (a = b) then subseq x' y' else subseq x y'
  end.

(** No occurrence of [q] can reach over the left end of [new] unless
    it reached over the left end of [old] in the same way: every end
    piece of [q] that fits the beginning of [new] is the beginning of
    [old].  [left_safe_from] goes through the end pieces. *)
Fixpoint left_safe_from (t : list A) old new : bool :=
  match t with
  | [] => true
  | _ :: t' =>
      (if agree t new then starts_with t old else true)
      && left_safe_from t' old new
  end.

Definition left_safe q old new : bool :=
  match q with
  | [] => true
  | _ :: t => left_safe_from t old new
  end.

(** The same for the right end: every end piece of [new] that is a
    beginning of [q], and not all of [q], is the end of [old]. *)
Fixpoint right_safe_from (t : list A) q old : bool :=
  match t with
  | [] => true
  | _ :: t' =>
      (if starts_with t q
       then if bool_decide (length t < length q) then ends_with t old else true
       else true)
      && right_safe_from t' q old
  end.

Definition right_safe q old new : bool := right_safe_from new q old.

(** One replacement is harmless for a text whose atoms are [ats] and
    whose occurrences of the texts [watch] all lie inside atoms. *)
Definition edit_ok (watch ats : list (list A)) old new : bool :=
  bool_decide (old ≠ []) &&
  bool_decide (old ∈ watch) &&
  bool_decide (NoDup ats) &&
  forallb (fun x => bool_decide (x = old) || negb (contains old x)) ats &&
  forallb (fun q => bool_decide (q ≠ []) && left_safe q old new && right_safe q old new) watch.

Fixpoint edits_ok (watch ats : list (list A)) (es : list (list A * list A)) : bool :=
  match es with
  | [] => true
  | (old, new) :: es' =>
      edit_ok watch ats old new &&
      edits_ok watch (map (subst_text old new) ats) es'
  end.

Definition apply_edits (es : list (list A * list A)) (s : list A) : list A :=
  foldl (fun c e => replace e.1 e.2 c) s es.

Definition subst_edits (es : list (list A * list A)) (ps : list piece) : list piece :=
  foldl (fun ps e => map (subst_piece e.1 e.2) ps) ps es.

Definition subst_texts (es : list (list A * list A)) (ats : list (list A)) : list (list A) :=
  foldl (fun ats e => map (subst_text e.1 e.2) ats) ats es.

(** The pairs (atom, offset) at which [q] occurs inside an atom of
    [ats]. *)
Definition atom_occs q (ats : list (list A)) : list (list A * nat) :=
  x ← ats; (fun i => (x, i)) <$> positions q x.

(** [sep] on a concrete list of pieces. *)
Definition in_atomb (ps : list piece) (i n : nat) : bool :=
  existsb (fun sx => bool_decide (sx.1 ≤ i) && bool_decide (i + n ≤ sx.1 + length sx.2))
          (spans ps).

Definition sepb q (ps : list piece) : bool :=
  forallb (fun i => in_atomb ps i (length q)) (positions q (render ps)).

End Pieces.

Arguments piece : clear implicits.

(** ** Replacements in any order *)

Section Orders.
Context {A : Type} `{EqDecision A}.
Implicit Types (old new x : list A) (es : list (list A * list A)).

(** What the replacements [es] make of the atom [x]: the new text of
    the first pair whose old text is [x]. *)
Fixpoint rewritten es x : list A :=
  match es with
  | [] => x
  | (old, new) :: es' => if decide (x = old) then new else rewritten es' x
  end.

Definition rewrite_piece es (p : piece A) : piece A :=
  match p with
  | Fill f => Fill f
  | Atom x => Atom (rewritten es x)
  end.

(** All old and all new texts. *)
Definition universe es : list (list A) := es.*1 ++ es.*2.

(** A check on the replacements that does not depend on their order:
    old and new texts are all different, and an old text is found in
    no other of them than its own new text. *)
Definition static_edit_ok (watch all : list (list A)) old new : bool :=
  bool_decide (old ≠ []) &&
  bool_decide (old ∈ watch) &&
  forallb (fun x => bool_decide (x = old) || bool_decide (x = new)
                    || negb (contains old x)) all &&
  forallb (fun q => bool_decide (q ≠ []) && left_safe q old new
                    && right_safe q old new) watch.

Definition static_ok (watch : list (list A)) es : bool :=
  bool_decide (NoDup (universe es)) &&
  forallb (fun e => static_edit_ok watch (universe es) e.1 e.2) es.

End Orders.

(** ** The literals of the script *)

Definition txt (s : string) : text := list_ascii_of_string s.
Definition tab : ascii := ascii_of_nat 9.
Definition nl : ascii := ascii_of_nat 10.
(** The double quote, as a one-character text. *)
Definition dq : text := [ascii_of_nat 34].

(** One line of a triple-quoted literal: [n] tabs, the pieces, and the
    line feed; [ln_] is the last line of a literal that does not end in a
    line feed. *)
Definition ln_ (n : nat) (parts : list text) : text :=
  repeat tab n ++ concat parts.
Definition ln (n : nat) (parts : list text) : text :=
  ln_ n parts ++ [nl].

(** New unique IDs for the widget extension target *)
Definition ID_TARGET      : text := txt "DC9A30012F40A10100AABB01".
Definition ID_PRODUCT_REF : text := txt "DC9A30022F40A10100AABB02".
Definition ID_SYNC_GROUP  : text := txt "DC9A30032F40A10100AABB03".
Definition ID_FRAMEWORKS  : text := txt "DC9A30042F40A10100AABB04".
Definition ID_SOURCES     : text := txt "DC9A30052F40A10100AABB05".
Definition ID_RESOURCES   : text := txt "DC9A30062F40A10100AABB06".
Definition ID_EMBED_PHASE : text := txt "DC9A30072F40A10100AABB07".
Definition ID_PROXY       : text := txt "DC9A30082F40A10100AABB08".
Definition ID_DEPENDENCY  : text := txt "DC9A30092F40A10100AABB09".
Definition ID_CFG_DEBUG   : text := txt "DC9A300A2F40A10100AABB0A".
Definition ID_CFG_RELEASE : text := txt "DC9A300B2F40A10100AABB0B".
Definition ID_CFG_LIST    : text := txt "DC9A300C2F40A10100AABB0C".
Definition ID_EMBED_FILE  : text := txt "DC9A300D2F40A10100AABB0D".

(** Existing IDs *)
Definition ID_PROJECT     : text := txt "DC4A07602F3DA21800717C38".
Definition ID_APP_TARGET  : text := txt "DC4A07672F3DA21800717C38".
Definition ID_PRODUCTS    : text := txt "DC4A07692F3DA21800717C38".
Definition ID_MAIN_GROUP  : text := txt "DC4A075F2F3DA21800717C38".

(** The section markers the script looks for. *)
Definition end_PBXBuildFile : text := txt "/* End PBXBuildFile section */".
Definition end_PBXContainerItemProxy : text :=
  txt "/* End PBXContainerItemProxy section */".
Definition begin_PBXFileReference : text :=
  txt "/* Begin PBXFileReference section */".
Definition end_PBXFileReference : text :=
  txt "/* End PBXFileReference section */".
Definition end_PBXFileSystemSynchronizedRootGroup : text :=
  txt "/* End PBXFileSystemSynchronizedRootGroup section */".
Definition end_PBXFrameworksBuildPhase : text :=
  txt "/* End PBXFrameworksBuildPhase section */".
Definition end_PBXNativeTarget : text :=
  txt "/* End PBXNativeTarget section */".
Definition end_PBXResourcesBuildPhase : text :=
  txt "/* End PBXResourcesBuildPhase section */".
Definition end_PBXSourcesBuildPhase : text :=
  txt "/* End PBXSourcesBuildPhase section */".
Definition end_PBXTargetDependency : text :=
  txt "/* End PBXTargetDependency section */".
Definition end_XCBuildConfiguration : text :=
  txt "/* End XCBuildConfiguration section */".
Definition end_XCConfigurationList : text :=
  txt "/* End XCConfigurationList section */".

(** The f-string blocks, line by line. [old_targets], [new_targets],
    [old_target_attributes] and [new_target_attributes] are the four
    literals of step 9 that the script passes to [replace] without
    naming them. *)

Definition build_file_entry : text :=
  ln 2 [ID_EMBED_FILE; txt " /* EhDownloadWidget.appex in Embed Foundation Extensions */ = {isa = PBXBuildFile; fileRef = "; ID_PRODUCT_REF; txt " /* EhDownloadWidget.appex */; settings = {ATTRIBUTES = (RemoveHeadersOnCopy, ); }; };"].

Definition proxy_entry : text :=
  ln 2 [ID_PROXY; txt " /* PBXContainerItemProxy */ = {"]
  ++ ln 3 [txt "isa = PBXContainerItemProxy;"]
  ++ ln 3 [txt "containerPortal = "; ID_PROJECT; txt " /* Project object */;"]
  ++ ln 3 [txt "proxyType = 1;"]
  ++ ln 3 [txt "remoteGlobalIDString = "; ID_TARGET; txt ";"]
  ++ ln 3 [txt "remoteInfo = EhDownloadWidget;"]
  ++ ln 2 [txt "};"].

Definition copy_phase : text :=
  ln 0 [txt "/* Begin PBXCopyFilesBuildPhase section */"]
  ++ ln 2 [ID_EMBED_PHASE; txt " /* Embed Foundation Extensions */ = {"]
  ++ ln 3 [txt "isa = PBXCopyFilesBuildPhase;"]
  ++ ln 3 [txt "buildActionMask = 2147483647;"]
  ++ ln 3 [txt "dstPath = "; dq; dq; txt ";"]
  ++ ln 3 [txt "dstSubfolderSpec = 13;"]
  ++ ln 3 [txt "files = ("]
  ++ ln 4 [ID_EMBED_FILE; txt " /* EhDownloadWidget.appex in Embed Foundation Extensions */,"]
  ++ ln 3 [txt ");"]
  ++ ln 3 [txt "name = "; dq; txt "Embed Foundation Extensions"; dq; txt ";"]
  ++ ln 3 [txt "runOnlyForDeploymentPostprocessing = 0;"]
  ++ ln 2 [txt "};"]
  ++ ln 0 [txt "/* End PBXCopyFilesBuildPhase section */"]
  ++ ln 0 [].

Definition file_ref : text :=
  ln 2 [ID_PRODUCT_REF; txt " /* EhDownloadWidget.appex */ = {isa = PBXFileReference; explicitFileType = "; dq; txt "wrapper.app-extension"; dq; txt "; includeInIndex = 0; path = EhDownloadWidget.appex; sourceTree = BUILT_PRODUCTS_DIR; };"].

Definition sync_group : text :=
  ln 2 [ID_SYNC_GROUP; txt " /* EhDownloadWidget */ = {"]
  ++ ln 3 [txt "isa = PBXFileSystemSynchronizedRootGroup;"]
  ++ ln 3 [txt "exceptions = ("]
  ++ ln 3 [txt ");"]
  ++ ln 3 [txt "path = EhDownloadWidget;"]
  ++ ln 3 [txt "sourceTree = "; dq; txt "<group>"; dq; txt ";"]
  ++ ln 2 [txt "};"].

Definition fw_phase : text :=
  ln 2 [ID_FRAMEWORKS; txt " /* Frameworks */ = {"]
  ++ ln 3 [txt "isa = PBXFrameworksBuildPhase;"]
  ++ ln 3 [txt "buildActionMask = 2147483647;"]
  ++ ln 3 [txt "files = ("]
  ++ ln 3 [txt ");"]
  ++ ln 3 [txt "runOnlyForDeploymentPostprocessing = 0;"]
  ++ ln 2 [txt "};"].

Definition old_products : text :=
  ln 2 [ID_PRODUCTS; txt " /* Products */ = {"]
  ++ ln 3 [txt "isa = PBXGroup;"]
  ++ ln 3 [txt "children = ("]
  ++ ln 4 [txt "DC4A07682F3DA21800717C38 /* ehviewer apple.app */,"]
  ++ ln 4 [txt "DC4A07792F3DA21800717C38 /* ehviewer appleTests.xctest */,"]
  ++ ln 4 [txt "DC4A07832F3DA21800717C38 /* ehviewer appleUITests.xctest */,"]
  ++ ln_ 3 [txt ");"].

Definition new_products : text :=
  ln 2 [ID_PRODUCTS; txt " /* Products */ = {"]
  ++ ln 3 [txt "isa = PBXGroup;"]
  ++ ln 3 [txt "children = ("]
  ++ ln 4 [txt "DC4A07682F3DA21800717C38 /* ehviewer apple.app */,"]
  ++ ln 4 [txt "DC4A07792F3DA21800717C38 /* ehviewer appleTests.xctest */,"]
  ++ ln 4 [txt "DC4A07832F3DA21800717C38 /* ehviewer appleUITests.xctest */,"]
  ++ ln 4 [ID_PRODUCT_REF; txt " /* EhDownloadWidget.appex */,"]
  ++ ln_ 3 [txt ");"].

Definition old_root : text :=
  ln 2 [ID_MAIN_GROUP; txt " = {"]
  ++ ln 3 [txt "isa = PBXGroup;"]
  ++ ln 3 [txt "children = ("]
  ++ ln 4 [txt "DC4A076A2F3DA21800717C38 /* ehviewer apple */,"]
  ++ ln 4 [txt "DC4A07862F3DA21800717C38 /* ehviewer appleUITests */,"]
  ++ ln 4 [ID_PRODUCTS; txt " /* Products */,"]
  ++ ln_ 3 [txt ");"].

Definition new_root : text :=
  ln 2 [ID_MAIN_GROUP; txt " = {"]
  ++ ln 3 [txt "isa = PBXGroup;"]
  ++ ln 3 [txt "children = ("]
  ++ ln 4 [txt "DC4A076A2F3DA21800717C38 /* ehviewer apple */,"]
  ++ ln 4 [ID_SYNC_GROUP; txt " /* EhDownloadWidget */,"]
  ++ ln 4 [txt "DC4A07862F3DA21800717C38 /* ehviewer appleUITests */,"]
  ++ ln 4 [ID_PRODUCTS; txt " /* Products */,"]
  ++ ln_ 3 [txt ");"].

Definition native_target : text :=
  ln 2 [ID_TARGET; txt " /* EhDownloadWidget */ = {"]
  ++ ln 3 [txt "isa = PBXNativeTarget;"]
  ++ ln 3 [txt "buildConfigurationList = "; ID_CFG_LIST; txt " /* Build configuration list for PBXNativeTarget "; dq; txt "EhDownloadWidget"; dq; txt " */;"]
  ++ ln 3 [txt "buildPhases = ("]
  ++ ln 4 [ID_SOURCES; txt " /* Sources */,"]
  ++ ln 4 [ID_FRAMEWORKS; txt " /* Frameworks */,"]
  ++ ln 4 [ID_RESOURCES; txt " /* Resources */,"]
  ++ ln 3 [txt ");"]
  ++ ln 3 [txt "buildRules = ("]
  ++ ln 3 [txt ");"]
  ++ ln 3 [txt "dependencies = ("]
  ++ ln 3 [txt ");"]
  ++ ln 3 [txt "fileSystemSynchronizedGroups = ("]
  ++ ln 4 [ID_SYNC_GROUP; txt " /* EhDownloadWidget */,"]
  ++ ln 3 [txt ");"]
  ++ ln 3 [txt "name = EhDownloadWidget;"]
  ++ ln 3 [txt "packageProductDependencies = ("]
  ++ ln 3 [txt ");"]
  ++ ln 3 [txt "productName = EhDownloadWidget;"]
  ++ ln 3 [txt "productReference = "; ID_PRODUCT_REF; txt " /* EhDownloadWidget.appex */;"]
  ++ ln 3 [txt "productType = "; dq; txt "com.apple.product-type.app-extension"; dq; txt ";"]
  ++ ln 2 [txt "};"].

Definition old_targets : text :=
  ln 3 [txt "targets = ("]
  ++ ln 4 [ID_APP_TARGET; txt " /* ehviewer apple */,"]
  ++ ln 4 [txt "DC4A07782F3DA21800717C38 /* ehviewer appleTests */,"]
  ++ ln 4 [txt "DC4A07822F3DA21800717C38 /* ehviewer appleUITests */,"]
  ++ ln_ 3 [txt ");"].

Definition new_targets : text :=
  ln 3 [txt "targets = ("]
  ++ ln 4 [ID_APP_TARGET; txt " /* ehviewer apple */,"]
  ++ ln 4 [txt "DC4A07782F3DA21800717C38 /* ehviewer appleTests */,"]
  ++ ln 4 [txt "DC4A07822F3DA21800717C38 /* ehviewer appleUITests */,"]
  ++ ln 4 [ID_TARGET; txt " /* EhDownloadWidget */,"]
  ++ ln_ 3 [txt ");"].

Definition old_target_attributes : text :=
  ln 5 [ID_APP_TARGET; txt " = {"]
  ++ ln 6 [txt "CreatedOnToolsVersion = 26.2;"]
  ++ ln_ 5 [txt "};"].

Definition new_target_attributes : text :=
  ln 5 [ID_APP_TARGET; txt " = {"]
  ++ ln 6 [txt "CreatedOnToolsVersion = 26.2;"]
  ++ ln 5 [txt "};"]
  ++ ln 5 [ID_TARGET; txt " = {"]
  ++ ln 6 [txt "CreatedOnToolsVersion = 26.2;"]
  ++ ln_ 5 [txt "};"].

Definition old_app_phases : text :=
  ln 2 [ID_APP_TARGET; txt " /* ehviewer apple */ = {"]
  ++ ln 3 [txt "isa = PBXNativeTarget;"]
  ++ ln 3 [txt "buildConfigurationList = DC4A078C2F3DA21800717C38 /* Build configuration list for PBXNativeTarget "; dq; txt "ehviewer apple"; dq; txt " */;"]
  ++ ln 3 [txt "buildPhases = ("]
  ++ ln 4 [txt "DC4A07642F3DA21800717C38 /* Sources */,"]
  ++ ln 4 [txt "DC4A07652F3DA21800717C38 /* Frameworks */,"]
  ++ ln 4 [txt "DC4A07662F3DA21800717C38 /* Resources */,"]
  ++ ln 3 [txt ");"]
  ++ ln 3 [txt "buildRules = ("]
  ++ ln 3 [txt ");"]
  ++ ln 3 [txt "dependencies = ("]
  ++ ln_ 3 [txt ");"].

Definition new_app_phases : text :=
  ln 2 [ID_APP_TARGET; txt " /* ehviewer apple */ = {"]
  ++ ln 3 [txt "isa = PBXNativeTarget;"]
  ++ ln 3 [txt "buildConfigurationList = DC4A078C2F3DA21800717C38 /* Build configuration list for PBXNativeTarget "; dq; txt "ehviewer apple"; dq; txt " */;"]
  ++ ln 3 [txt "buildPhases = ("]
  ++ ln 4 [txt "DC4A07642F3DA21800717C38 /* Sources */,"]
  ++ ln 4 [txt "DC4A07652F3DA21800717C38 /* Frameworks */,"]
  ++ ln 4 [txt "DC4A07662F3DA21800717C38 /* Resources */,"]
  ++ ln 4 [ID_EMBED_PHASE; txt " /* Embed Foundation Extensions */,"]
  ++ ln 3 [txt ");"]
  ++ ln 3 [txt "buildRules = ("]
  ++ ln 3 [txt ");"]
  ++ ln 3 [txt "dependencies = ("]
  ++ ln 4 [ID_DEPENDENCY; txt " /* PBXTargetDependency */,"]
  ++ ln_ 3 [txt ");"].

Definition res_phase : text :=
  ln 2 [ID_RESOURCES; txt " /* Resources */ = {"]
  ++ ln 3 [txt "isa = PBXResourcesBuildPhase;"]
  ++ ln 3 [txt "buildActionMask = 2147483647;"]
  ++ ln 3 [txt "files = ("]
  ++ ln 3 [txt ");"]
  ++ ln 3 [txt "runOnlyForDeploymentPostprocessing = 0;"]
  ++ ln 2 [txt "};"].

Definition src_phase : text :=
  ln 2 [ID_SOURCES; txt " /* Sources */ = {"]
  ++ ln 3 [txt "isa = PBXSourcesBuildPhase;"]
  ++ ln 3 [txt "buildActionMask = 2147483647;"]
  ++ ln 3 [txt "files = ("]
  ++ ln 3 [txt ");"]
  ++ ln 3 [txt "runOnlyForDeploymentPostprocessing = 0;"]
  ++ ln 2 [txt "};"].

Definition dep_entry : text :=
  ln 2 [ID_DEPENDENCY; txt " /* PBXTargetDependency */ = {"]
  ++ ln 3 [txt "isa = PBXTargetDependency;"]
  ++ ln 3 [txt "target = "; ID_TARGET; txt " /* EhDownloadWidget */;"]
  ++ ln 3 [txt "targetProxy = "; ID_PROXY; txt " /* PBXContainerItemProxy */;"]
  ++ ln 2 [txt "};"].

Definition cfg_debug : text :=
  ln 2 [ID_CFG_DEBUG; txt " /* Debug */ = {"]
  ++ ln 3 [txt "isa = XCBuildConfiguration;"]
  ++ ln 3 [txt "buildSettings = {"]
  ++ ln 4 [txt "ASSTCALOG_COMPILER_GLOBAL_ACCENT_COLOR_NAME = AccentColor;"]
  ++ ln 4 [txt "CODE_SIGN_STYLE = Automatic;"]
  ++ ln 4 [txt "CURRENT_PROJECT_VERSION = 1;"]
  ++ ln 4 [txt "DEVELOPMENT_TEAM = HWZEUNLCY6;"]
  ++ ln 4 [txt "GENERATE_INFOPLIST_FILE = YES;"]
  ++ ln 4 [txt "INFOPLIST_FILE = EhDownloadWidget/Info.plist;"]
  ++ ln 4 [txt "INFOPLIST_KEY_CFBundleDisplayName = EhDownloadWidget;"]
  ++ ln 4 [txt "INFOPLIST_KEY_NSHumanReadableCopyright = "; dq; dq; txt ";"]
  ++ ln 4 [txt "IPHONEOS_DEPLOYMENT_TARGET = 18.0;"]
  ++ ln 4 [txt "LD_RUNPATH_SEARCH_PATHS = ("]
  ++ ln 5 [dq; txt "$(inherited)"; dq; txt ","]
  ++ ln 5 [dq; txt "@executable_path/Frameworks"; dq; txt ","]
  ++ ln 5 [dq; txt "@executable_path/../../Frameworks"; dq; txt ","]
  ++ ln 4 [txt ");"]
  ++ ln 4 [txt "MARKETING_VERSION = 1.2.0;"]
  ++ ln 4 [txt "PRODUCT_BUNDLE_IDENTIFIER = "; dq; txt "Stellatrix.ehviewer-apple.EhDownloadWidget"; dq; txt ";"]
  ++ ln 4 [txt "PRODUCT_NAME = "; dq; txt "$(TARGET_NAME)"; dq; txt ";"]
  ++ ln 4 [txt "SDKROOT = iphoneos;"]
  ++ ln 4 [txt "SKIP_INSTALL = YES;"]
  ++ ln 4 [txt "STRING_CATALOG_GENERATE_SYMBOLS = YES;"]
  ++ ln 4 [txt "SUPPORTED_PLATFORMS = "; dq; txt "iphoneos iphonesimulator"; dq; txt ";"]
  ++ ln 4 [txt "SWIFT_APPROACHABLE_CONCURRENCY = YES;"]
  ++ ln 4 [txt "SWIFT_EMIT_LOC_STRINGS = YES;"]
  ++ ln 4 [txt "SWIFT_VERSION = 5.0;"]
  ++ ln 4 [txt "TARGETED_DEVICE_FAMILY = "; dq; txt "1,2"; dq; txt ";"]
  ++ ln 3 [txt "};"]
  ++ ln 3 [txt "name = Debug;"]
  ++ ln 2 [txt "};"].

Definition cfg_release : text :=
  ln 2 [ID_CFG_RELEASE; txt " /* Release */ = {"]
  ++ ln 3 [txt "isa = XCBuildConfiguration;"]
  ++ ln 3 [txt "buildSettings = {"]
  ++ ln 4 [txt "ASSTCALOG_COMPILER_GLOBAL_ACCENT_COLOR_NAME = AccentColor;"]
  ++ ln 4 [txt "CODE_SIGN_STYLE = Automatic;"]
  ++ ln 4 [txt "CURRENT_PROJECT_VERSION = 1;"]
  ++ ln 4 [txt "DEVELOPMENT_TEAM = HWZEUNLCY6;"]
  ++ ln 4 [txt "GENERATE_INFOPLIST_FILE = YES;"]
  ++ ln 4 [txt "INFOPLIST_FILE = EhDownloadWidget/Info.plist;"]
  ++ ln 4 [txt "INFOPLIST_KEY_CFBundleDisplayName = EhDownloadWidget;"]
  ++ ln 4 [txt "INFOPLIST_KEY_NSHumanReadableCopyright = "; dq; dq; txt ";"]
  ++ ln 4 [txt "IPHONEOS_DEPLOYMENT_TARGET = 18.0;"]
  ++ ln 4 [txt "LD_RUNPATH_SEARCH_PATHS = ("]
  ++ ln 5 [dq; txt "$(inherited)"; dq; txt ","]
  ++ ln 5 [dq; txt "@executable_path/Frameworks"; dq; txt ","]
  ++ ln 5 [dq; txt "@executable_path/../../Frameworks"; dq; txt ","]
  ++ ln 4 [txt ");"]
  ++ ln 4 [txt "MARKETING_VERSION = 1.2.0;"]
  ++ ln 4 [txt "PRODUCT_BUNDLE_IDENTIFIER = "; dq; txt "Stellatrix.ehviewer-apple.EhDownloadWidget"; dq; txt ";"]
  ++ ln 4 [txt "PRODUCT_NAME = "; dq; txt "$(TARGET_NAME)"; dq; txt ";"]
  ++ ln 4 [txt "SDKROOT = iphoneos;"]
  ++ ln 4 [txt "SKIP_INSTALL = YES;"]
  ++ ln 4 [txt "STRING_CATALOG_GENERATE_SYMBOLS = YES;"]
  ++ ln 4 [txt "SUPPORTED_PLATFORMS = "; dq; txt "iphoneos iphonesimulator"; dq; txt ";"]
  ++ ln 4 [txt "SWIFT_APPROACHABLE_CONCURRENCY = YES;"]
  ++ ln 4 [txt "SWIFT_EMIT_LOC_STRINGS = YES;"]
  ++ ln 4 [txt "SWIFT_VERSION = 5.0;"]
  ++ ln 4 [txt "TARGETED_DEVICE_FAMILY = "; dq; txt "1,2"; dq; txt ";"]
  ++ ln 3 [txt "};"]
  ++ ln 3 [txt "name = Release;"]
  ++ ln 2 [txt "};"].

Definition cfg_list : text :=
  ln 2 [ID_CFG_LIST; txt " /* Build configuration list for PBXNativeTarget "; dq; txt "EhDownloadWidget"; dq; txt " */ = {"]
  ++ ln 3 [txt "isa = XCConfigurationList;"]
  ++ ln 3 [txt "buildConfigurations = ("]
  ++ ln 4 [ID_CFG_DEBUG; txt " /* Debug */,"]
  ++ ln 4 [ID_CFG_RELEASE; txt " /* Release */,"]
  ++ ln 3 [txt ");"]
  ++ ln 3 [txt "defaultConfigurationIsVisible = 0;"]
  ++ ln 3 [txt "defaultConfigurationName = Release;"]
  ++ ln 2 [txt "};"].

(** ** The transformation

    [patch] is the body of the script between reading and writing the
    file: seventeen assignments [content = content.replace(...)]. *)

Definition patch (content : text) : text :=
  (* 1. Add PBXBuildFile for embedding the extension *)
  let content := replace end_PBXBuildFile
                   (build_file_entry ++ end_PBXBuildFile) content in
  (* 2. Add PBXContainerItemProxy *)
  let content := replace end_PBXContainerItemProxy
                   (proxy_entry ++ end_PBXContainerItemProxy) content in
  (* 3. Add PBXCopyFilesBuildPhase, before the PBXFileReference section *)
  let content := replace begin_PBXFileReference
                   (copy_phase ++ begin_PBXFileReference) content in
  (* 4. Add PBXFileReference for the .appex product *)
  let content := replace end_PBXFileReference
                   (file_ref ++ end_PBXFileReference) content in
  (* 5. Add PBXFileSystemSynchronizedRootGroup for extension sources *)
  let content := replace end_PBXFileSystemSynchronizedRootGroup
                   (sync_group ++ end_PBXFileSystemSynchronizedRootGroup) content in
  (* 6. Add PBXFrameworksBuildPhase for extension *)
  let content := replace end_PBXFrameworksBuildPhase
                   (fw_phase ++ end_PBXFrameworksBuildPhase) content in
  (* 7. Add product to Products group + source dir to root group *)
  let content := replace old_products new_products content in
  let content := replace old_root new_root content in
  (* 8. Add PBXNativeTarget for widget extension *)
  let content := replace end_PBXNativeTarget
                   (native_target ++ end_PBXNativeTarget) content in
  (* 9. Update PBXProject: add target, embed phase to app, dependency *)
  let content := replace old_targets new_targets content in
  let content := replace old_target_attributes new_target_attributes content in
  let content := replace old_app_phases new_app_phases content in
  (* 10. Add PBXResourcesBuildPhase for extension *)
  let content := replace end_PBXResourcesBuildPhase
                   (res_phase ++ end_PBXResourcesBuildPhase) content in
  (* 11. Add PBXSourcesBuildPhase for extension *)
  let content := replace end_PBXSourcesBuildPhase
                   (src_phase ++ end_PBXSourcesBuildPhase) content in
  (* 12. Add PBXTargetDependency *)
  let content := replace end_PBXTargetDependency
                   (dep_entry ++ end_PBXTargetDependency) content in
  (* 13. Add XCBuildConfiguration Debug + Release for extension *)
  let content := replace end_XCBuildConfiguration
                   (cfg_debug ++ cfg_release ++ end_XCBuildConfiguration) content in
  (* 14. Add XCConfigurationList for extension *)
  let content := replace end_XCConfigurationList
                   (cfg_list ++ end_XCConfigurationList) content in
  content.

Arguments patch : simpl never.

(** The twelve steps that put a block in front of a section marker, as
    pairs (marker, block), in program order. *)
Definition insertions : list (text * text) :=
  [ (end_PBXBuildFile, build_file_entry);
    (end_PBXContainerItemProxy, proxy_entry);
    (begin_PBXFileReference, copy_phase);
    (end_PBXFileReference, file_ref);
    (end_PBXFileSystemSynchronizedRootGroup, sync_group);
    (end_PBXFrameworksBuildPhase, fw_phase);
    (end_PBXNativeTarget, native_target);
    (end_PBXResourcesBuildPhase, res_phase);
    (end_PBXSourcesBuildPhase, src_phase);
    (end_PBXTargetDependency, dep_entry);
    (end_XCBuildConfiguration, cfg_debug ++ cfg_release);
    (end_XCConfigurationList, cfg_list) ].

(** The eleven of them whose marker is the end of a section. *)
Definition end_insertions : list (text * text) :=
  filter (fun ab => ab.1 ≠ begin_PBXFileReference) insertions.

(** The five steps that replace a whole block, as pairs (old, new). *)
Definition replacements : list (text * text) :=
  [ (old_products, new_products);
    (old_root, new_root);
    (old_targets, new_targets);
    (old_target_attributes, new_target_attributes);
    (old_app_phases, new_app_phases) ].

(** All seventeen calls of [replace] as pairs (old, new), in program
    order. *)
Definition edits : list (text * text) :=
  [ (end_PBXBuildFile, build_file_entry ++ end_PBXBuildFile);
    (end_PBXContainerItemProxy, proxy_entry ++ end_PBXContainerItemProxy);
    (begin_PBXFileReference, copy_phase ++ begin_PBXFileReference);
    (end_PBXFileReference, file_ref ++ end_PBXFileReference);
    (end_PBXFileSystemSynchronizedRootGroup,
     sync_group ++ end_PBXFileSystemSynchronizedRootGroup);
    (end_PBXFrameworksBuildPhase, fw_phase ++ end_PBXFrameworksBuildPhase);
    (old_products, new_products);
    (old_root, new_root);
    (end_PBXNativeTarget, native_target ++ end_PBXNativeTarget);
    (old_targets, new_targets);
    (old_target_attributes, new_target_attributes);
    (old_app_phases, new_app_phases);
    (end_PBXResourcesBuildPhase, res_phase ++ end_PBXResourcesBuildPhase);
    (end_PBXSourcesBuildPhase, src_phase ++ end_PBXSourcesBuildPhase);
    (end_PBXTargetDependency, dep_entry ++ end_PBXTargetDependency);
    (end_XCBuildConfiguration,
     cfg_debug ++ cfg_release ++ end_XCBuildConfiguration);
    (end_XCConfigurationList, cfg_list ++ end_XCConfigurationList) ].

Definition patterns : list text := edits.*1.
Definition blocks : list text := insertions.*2.

(** The texts whose occurrences are followed through the run. *)
Definition watched : list text := patterns ++ blocks.

(** The atoms of a well-formed text after the run. *)
Definition final_atoms : list text := subst_texts edits patterns.

(** The old blocks that the run removes for good; the old block of the
    target attributes is the beginning of its own replacement. *)
Definition vanishing : list text :=
  [old_products; old_root; old_targets; old_app_phases].

(** After the run a marker and the block in front of it are two
    places of their own, and so are the old block of the target
    attributes and what was put behind it. *)
Definition cuts : list (text * list text) :=
  ((fun ab => (ab.2 ++ ab.1, [ab.2; ab.1])) <$> insertions)
  ++ [ (new_target_attributes,
        [ old_target_attributes;
          drop (length old_target_attributes) new_target_attributes ]) ].

Definition cut (x : text) : list text :=
  match list_find (fun c => c.1 = x) cuts with
  | Some (_, c) => c.2
  | None => [x]
  end.

(** The atoms at the start of a second run, and those at its end. *)
Definition second_atoms : list text := final_atoms ≫= cut.
Definition twice_atoms : list text := subst_texts edits second_atoms.

(** [s.split(nl)] *)
Fixpoint split_lines (s : text) : list text :=
  match s with
  | [] => [[]]
  | c :: s' =>
      if decide (c = nl) then [] :: split_lines s'
      else match split_lines s' with
           | l :: ls => (c :: l) :: ls
           | [] => [[c]]
           end
  end.

(** The line that step 7 adds to the children of the Products group. *)
Definition products_line : text :=
  ln_ 4 [ID_PRODUCT_REF; txt " /* EhDownloadWidget.appex */,"].

(** By how much a replacement lengthens its block. *)
Definition delta (e : text * text) : nat := length e.2 - length e.1.

(** A well-formed project file: every marker and every old block occurs
    exactly once, these occurrences do not overlap one another, and
    none of the blocks to be inserted is there yet. *)
Definition well_formed (s : text) : Prop :=
  (∀ p, p ∈ patterns → occurs_once p s)
  ∧ (∀ p p' i i', p ∈ patterns → p' ∈ patterns → p ≠ p' →
       occ_at p s i → occ_at p' s i' →
       i + length p ≤ i' ∨ i' + length p' ≤ i)
  ∧ (∀ b, b ∈ blocks → ¬ occurs b s).

(** The same, stated with a cut of the text into pieces whose atoms are
    the seventeen patterns. *)
Definition pieced (s : text) : Prop :=
  ∃ ps : list (piece ascii),
    s = render ps ∧ atoms ps ≡ₚ patterns ∧ ∀ q, q ∈ watched → sep q ps.

(** ** The script as a program on a file system

    A file holds the text Python reads from it in text mode; opening
    fails for a missing or protected file.  [io] is the state and
    exception monad of the run: the world is the file system and what
    was printed so far. *)

Record file : Type := File {
  data : text;
  readable : bool;
  writable : bool
}.

Inductive exn : Type :=
| FileNotFoundError (path : string)
| PermissionError (path : string).

Record world : Type := World {
  fs : gmap string file;
  stdout : list text
}.

Definition io (A : Type) : Type := world → (exn + A) * world.

Definition io_ret {A} (a : A) : io A := fun w => (inr a, w).

Definition io_bind {A B} (m : io A) (k : A → io B) : io B :=
  fun w =>
    match m w with
    | (inl e, w') => (inl e, w')
    | (inr a, w') => k a w'
    end.

Notation "x <- m ;; k" := (io_bind m (fun x => k))
  (at level 100, m at next level, right associativity).
Notation "m ;;; k" := (io_bind m (fun _ => k))
  (at level 100, right associativity).

(** [with open(path, 'r') as f: f.read()] *)
Definition read_file (path : string) : io text :=
  fun w =>
    match fs w !! path with
    | None => (inl (FileNotFoundError path), w)
    | Some f =>
        if readable f then (inr (data f), w)
        else (inl (PermissionError path), w)
    end.

(** [with open(path, 'w') as f: f.write(content)]: the file is
    truncated and rewritten, or created when it is not there. *)
Definition write_file (path : string) (content : text) : io unit :=
  fun w =>
    match fs w !! path with
    | None =>
        (inr (), World (<[path := File content true true]> (fs w)) (stdout w))
    | Some f =>
        if writable f
        then (inr (),
              World (<[path := File content (readable f) true]> (fs w)) (stdout w))
        else (inl (PermissionError path), w)
    end.

Definition print (line : text) : io unit :=
  fun w => (inr (), World (fs w) (stdout w ++ [line])).

Definition default_path : string := "ehviewer apple.xcodeproj/project.pbxproj".

(** [sys.argv[1] if len(sys.argv) > 1 else "ehviewer apple.xcodeproj/project.pbxproj"] *)
Definition PBXPROJ_PATH (argv : list string) : string :=
  match argv with
  | _ :: path :: _ => path
  | _ => default_path
  end.

(** The line the script prints last; its first seven bytes are the
    source's encoding of the check mark. *)
Definition success_message : text :=
  (ascii_of_nat <$> [195; 162; 197; 147; 226; 128; 166])
  ++ txt " Successfully added EhDownloadWidget extension target to project.pbxproj".

(** The whole script. *)
Definition main (argv : list string) : io unit :=
  content <- read_file (PBXPROJ_PATH argv) ;;
  let content := patch content in
  write_file (PBXPROJ_PATH argv) content ;;;
  print success_message.

(** ** Test inputs *)

(** A section that is empty but for its two markers. *)
Definition section (name : string) (end_marker : text) : list (piece ascii) :=
  [ Fill (txt "/* Begin " ++ txt name ++ txt " section */" ++ [nl]);
    Atom end_marker;
    Fill [nl; nl] ].

Definition entry (block : text) : list (piece ascii) :=
  [ Atom block; Fill [nl] ].

(** The smallest project file the script patches completely: the
    sections in the order Xcode writes them, each empty, and the five
    old blocks. *)
Definition minimal_pieces : list (piece ascii) :=
  section "PBXBuildFile" end_PBXBuildFile
  ++ section "PBXContainerItemProxy" end_PBXContainerItemProxy
  ++ [ Atom begin_PBXFileReference; Fill [nl];
       Atom end_PBXFileReference; Fill [nl; nl] ]
  ++ section "PBXFileSystemSynchronizedRootGroup"
       end_PBXFileSystemSynchronizedRootGroup
  ++ section "PBXFrameworksBuildPhase" end_PBXFrameworksBuildPhase
  ++ entry old_root
  ++ entry old_products
  ++ [ Fill (txt "/* Begin PBXNativeTarget section */" ++ [nl]) ]
  ++ entry old_app_phases
  ++ [ Atom end_PBXNativeTarget; Fill [nl; nl] ]
  ++ entry old_target_attributes
  ++ entry old_targets
  ++ section "PBXResourcesBuildPhase" end_PBXResourcesBuildPhase
  ++ section "PBXSourcesBuildPhase" end_PBXSourcesBuildPhase
  ++ section "PBXTargetDependency" end_PBXTargetDependency
  ++ section "XCBuildConfiguration" end_XCBuildConfiguration
  ++ section "XCConfigurationList" end_XCConfigurationList.

Definition minimal_project : text := render minimal_pieces.

(** The same without the two old blocks of the PBXProject record, so
    that only the Products group, the root group and the application
    target are replaced. *)
Definition three_block_project : text :=
  render (filter
            (fun p => p ≠ Atom old_targets ∧ p ≠ Atom old_target_attributes)
            minimal_pieces).

(** Every pattern once and no block, but the end marker of the
    PBXFileReference section shares its last character with the first
    of the end marker of the PBXBuildFile section. *)
Definition overlapping_project : text :=
  take 33 end_PBXFileReference ++ end_PBXBuildFile ++ [nl]
  ++ concat ((fun p => p ++ [nl]) <$>
       filter (fun p => p ≠ end_PBXFileReference ∧ p ≠ end_PBXBuildFile) patterns).

(** The minimal project with a copy of the PBXBuildFile entry in front
    of it, as if that one record had been added before. *)
Definition prepatched_project : text := build_file_entry ++ minimal_project.

(** The minimal project without the start marker of the
    PBXFileReference section. *)
Definition unmarked_project : text :=
  render (filter (fun p => p ≠ Atom begin_PBXFileReference) minimal_pieces).

(** A file the script can read and write. *)
Definition plain_file (content : text) : file := File content true true.

Definition one_file_world (path : string) (content : text) : world :=
  World {[ path := plain_file content ]} [].


(** The command line of a run on [project.pbxproj], and a project file
    that holds nothing but the first line Xcode writes. *)
Definition script_argv : list string :=
  ["add_widget_target.py"; "project.pbxproj"]%string.

Definition stub_text : text := txt "// !$*UTF8*$!" ++ [nl].

Definition stub_world : world := one_file_world "project.pbxproj" stub_text.

(** The same text in the default place, next to another file. *)
Definition default_world : world :=
  World {[ default_path := plain_file stub_text;
           "README.md"%string := plain_file (txt "EhViewer") ]} [].

Definition empty_world : world := World ∅ [].


(** A project file in which only some of the patterns are found: the
    minimal project without its PBXNativeTarget section and without
    the targets list. *)
Definition partial_pieces : list (piece ascii) :=
  filter (fun p => p ≠ Atom end_PBXNativeTarget ∧ p ≠ Atom old_app_phases
                   ∧ p ≠ Atom old_targets)
         minimal_pieces.

(** A world whose project file may be read but not written. *)
Definition read_only_world : world :=
  World {[ "project.pbxproj"%string := File stub_text true false ]} [].

(** The thirteen records the run inserts, as the script names them. *)
Definition records : list text :=
  [ build_file_entry; proxy_entry; copy_phase; file_ref; sync_group;
    fw_phase; native_target; res_phase; src_phase; dep_entry;
    cfg_debug; cfg_release; cfg_list ].

(** Where each record is put: the marker, the record, and what the
    step puts between the record and the marker.  Only the Debug
    configuration has something behind it, the Release configuration
    that the same step inserts. *)
Definition placements : list (text * text * text) :=
  [ (end_PBXBuildFile, build_file_entry, []);
    (end_PBXContainerItemProxy, proxy_entry, []);
    (begin_PBXFileReference, copy_phase, []);
    (end_PBXFileReference, file_ref, []);
    (end_PBXFileSystemSynchronizedRootGroup, sync_group, []);
    (end_PBXFrameworksBuildPhase, fw_phase, []);
    (end_PBXNativeTarget, native_target, []);
    (end_PBXResourcesBuildPhase, res_phase, []);
    (end_PBXSourcesBuildPhase, src_phase, []);
    (end_PBXTargetDependency, dep_entry, []);
    (end_XCBuildConfiguration, cfg_debug, cfg_release);
    (end_XCBuildConfiguration, cfg_release, []);
    (end_XCConfigurationList, cfg_list, []) ].

(** The attributes of the new target, which the replacement of the
    target attributes puts behind its old block. *)
Definition widget_attributes : text :=
  drop (length old_target_attributes) new_target_attributes.

(** The texts whose occurrences are followed through a run when the
    records are counted one by one, and when the attributes are. *)
Definition watched_records : list text := watched ++ records.
Definition watched_attributes : list text := watched ++ [widget_attributes].

(** The one place of a text in the atoms [ats], with what follows it
    there. *)
Definition placed (ats : list text) (R rest : text) : bool :=
  match atom_occs R ats with
  | [(x, off)] => bool_decide (drop off x = R ++ rest)
  | _ => false
  end.

(** * Properties *)

(** Closed goals about the literals are decided by evaluation. *)
Ltac vm_decide := apply (bool_decide_unpack _); vm_compute; exact I.
Ltac vm_refl := vm_compute; reflexivity.

(** ** [replace] and [count] *)

Section ReplaceFacts.
Context {A : Type} `{EqDecision A}.
Implicit Types (old new q s d r f : list A).

Lemma drop_ind (P : list A → Prop) :
  P [] → (∀ c s, (∀ k, P (drop k s)) → P (c :: s)) → ∀ s, P s.
Proof.
  intros Hnil Hcons s.
  cut (∀ k, P (drop k s)); [intros H'; exact (H' 0)|].
  induction s as [|c s IH]; intros k.
  - by rewrite drop_nil.
  - destruct k as [|k]; [apply Hcons, IH | apply IH].
Qed.

Lemma occ_at_cons a q b d :
  occ_at (a :: q) (b :: d) 0 ↔ b = a ∧ occ_at q d 0.
Proof.
  unfold occ_at; split.
  - intros H'; split.
    + specialize (H' 0 ltac:(simpl; lia)); simpl in H'. congruence.
    + intros j Hj. apply (H' (S j)). simpl; lia.
  - intros [-> H'] [|j] Hj; [done|]. apply H'. simpl in Hj; lia.
Qed.

Lemma occ_at_S q b d i : occ_at q (b :: d) (S i) ↔ occ_at q d i.
Proof. done. Qed.

Lemma occ_at_nil q i : q ≠ [] → ¬ occ_at q [] i.
Proof.
  destruct q as [|a q]; [done|]. intros _ H'.
  specialize (H' 0 ltac:(simpl; lia)); simpl in H'.
  by rewrite lookup_nil in H'.
Qed.

Lemma occ_at_length q d i : q ≠ [] → occ_at q d i → i + length q ≤ length d.
Proof.
  intros Hq H'. destruct (decide (length q = 0)) as [H0|H0].
  { by destruct q. }
  specialize (H' (length q - 1) ltac:(lia)).
  assert (is_Some (q !! (length q - 1))) as [c Hc] by (apply lookup_lt_is_Some; lia).
  rewrite Hc in H'. apply lookup_lt_Some in H'. lia.
Qed.

Lemma starts_with_occ q d : starts_with q d = true ↔ occ_at q d 0.
Proof.
  revert d; induction q as [|a q IH]; intros d.
  - split; [|done]. intros _ j Hj; simpl in Hj; lia.
  - destruct d as [|b d]; simpl.
    + split; [done|]. intros H'. by apply occ_at_nil in H'.
    + rewrite occ_at_cons. destruct (decide (a = b)) as [->|Hne].
      * rewrite IH. split; [done | by intros [_ ?]].
      * split; [done | intros [-> _]; done].
Qed.

Lemma starts_with_length q d : starts_with q d = true → length q ≤ length d.
Proof.
  revert d; induction q as [|a q IH]; intros [|b d]; simpl; try done; [lia|].
  destruct (decide (a = b)); [|done]. intros H'. apply IH in H'. lia.
Qed.

Lemma starts_with_app q r : starts_with q (q ++ r) = true.
Proof.
  induction q as [|a q IH]; [done|]. simpl.
  by rewrite decide_True.
Qed.

Lemma occ_at_app_l q u r : occ_at q (u ++ q ++ r) (length u).
Proof.
  intros j Hj. rewrite lookup_app_r by lia.
  rewrite lookup_app_l by lia. f_equal; lia.
Qed.

Lemma contains_occurs q d : contains q d = true ↔ occurs q d.
Proof.
  induction d as [|b d IH]; simpl.
  - rewrite orb_false_r, starts_with_occ. split; [by exists 0|].
    intros [i Hi]. destruct q as [|a q]; [intros j Hj; simpl in Hj; lia|].
    by apply occ_at_nil in Hi.
  - rewrite orb_true_iff, starts_with_occ, IH. split.
    + intros [H'|[i Hi]]; [by exists 0 | by exists (S i)].
    + intros [[|i] Hi]; [by left | right; by exists i].
Qed.

Lemma replace_scan_drop old new k s :
  replace_scan old new k s = replace_scan old new 0 (drop k s).
Proof.
  revert k; induction s as [|c s IH]; intros [|k]; try done. simpl. apply IH.
Qed.

Lemma count_scan_drop old k s :
  count_scan old k s = count_scan old 0 (drop k s).
Proof.
  revert k; induction s as [|c s IH]; intros [|k]; try done. simpl. apply IH.
Qed.

Lemma replace_nil old new : old ≠ [] → replace old new [] = [].
Proof. by destruct old. Qed.

Lemma replace_cons old new c s :
  old ≠ [] →
  replace old new (c :: s) =
    if starts_with old (c :: s)
    then new ++ replace old new (drop (length old - 1) s)
    else c :: replace old new s.
Proof.
  destruct old as [|a old]; [done|]. intros _.
  unfold replace. cbn [replace_scan]. by rewrite replace_scan_drop.
Qed.

Lemma count_nil old : count old [] = 0.
Proof. done. Qed.

Lemma count_cons old c s :
  count old (c :: s) =
    if starts_with old (c :: s)
    then S (count old (drop (length old - 1) s))
    else count old s.
Proof. unfold count. cbn [count_scan]. by rewrite count_scan_drop. Qed.

(** A match at the head is replaced and the scan goes on behind it. *)
Lemma replace_match old new r :
  old ≠ [] → replace old new (old ++ r) = new ++ replace old new r.
Proof.
  intros Hold. destruct old as [|a old]; [done|].
  change ((a :: old) ++ r) with (a :: (old ++ r)).
  rewrite replace_cons by done.
  change (a :: (old ++ r)) with ((a :: old) ++ r).
  rewrite starts_with_app. simpl. rewrite Nat.sub_0_r.
  by rewrite drop_app_length.
Qed.

Lemma count_match old r : old ≠ [] → count old (old ++ r) = S (count old r).
Proof.
  intros Hold. destruct old as [|a old]; [done|].
  change ((a :: old) ++ r) with (a :: (old ++ r)).
  rewrite count_cons.
  change (a :: (old ++ r)) with ((a :: old) ++ r).
  rewrite starts_with_app. simpl. rewrite Nat.sub_0_r.
  by rewrite drop_app_length.
Qed.

(** A stretch in which no match starts is copied. *)
Lemma replace_prefix_free old new f r :
  old ≠ [] →
  (∀ i, i < length f → ¬ occ_at old (f ++ r) i) →
  replace old new (f ++ r) = f ++ replace old new r.
Proof.
  intros Hold. induction f as [|c f IH]; intros Hfree; [done|].
  simpl. rewrite replace_cons by done.
  destruct (starts_with old (c :: f ++ r)) eqn:Hs.
  { apply starts_with_occ in Hs. destruct (Hfree 0); [simpl; lia | done]. }
  f_equal. apply IH. intros i Hi Hocc.
  apply (Hfree (S i)); [simpl; lia | done].
Qed.

Lemma count_prefix_free old f r :
  (∀ i, i < length f → ¬ occ_at old (f ++ r) i) →
  count old (f ++ r) = count old r.
Proof.
  induction f as [|c f IH]; intros Hfree; [done|].
  simpl. rewrite count_cons.
  destruct (starts_with old (c :: f ++ r)) eqn:Hs.
  { apply starts_with_occ in Hs. destruct (Hfree 0); [simpl; lia | done]. }
  apply IH. intros i Hi Hocc.
  apply (Hfree (S i)); [simpl; lia | done].
Qed.

(** Without a match [replace] changes nothing. *)
Lemma replace_no_occ old new s :
  old ≠ [] → ¬ occurs old s → replace old new s = s.
Proof.
  intros Hold Hno.
  rewrite <- (app_nil_r s) at 1.
  rewrite replace_prefix_free, replace_nil, app_nil_r; try done.
  intros i _ Hocc. apply Hno. exists i. by rewrite app_nil_r in Hocc.
Qed.

Lemma count_no_occ old s : ¬ occurs old s → count old s = 0.
Proof.
  intros Hno. rewrite <- (app_nil_r s).
  rewrite count_prefix_free; [done|].
  intros i _ Hocc. apply Hno. exists i. by rewrite app_nil_r in Hocc.
Qed.

Lemma count_occurs old s : old ≠ [] → occurs old s → 0 < count old s.
Proof.
  intros Hold. induction s as [|c s IH] using drop_ind.
  - intros [i Hi]. by apply occ_at_nil in Hi.
  - intros [i Hi]. rewrite count_cons.
    destruct (starts_with old (c :: s)) eqn:Hs; [lia|].
    destruct i as [|i]; [apply starts_with_occ in Hi; congruence|].
    specialize (IH 0). rewrite drop_0 in IH. apply IH. by exists i.
Qed.

(** The length of the result: every match trades [old] for [new]. *)
Lemma length_replace old new s :
  old ≠ [] →
  length (replace old new s) + count old s * length old
  = length s + count old s * length new.
Proof.
  intros Hold. induction s as [|c s IH] using drop_ind.
  - by rewrite replace_nil.
  - rewrite replace_cons, count_cons by done.
    destruct (starts_with old (c :: s)) eqn:Hs.
    + specialize (IH (length old - 1)).
      apply starts_with_length in Hs. simpl in Hs.
      rewrite length_app. rewrite length_drop in IH. simpl.
      assert (0 < length old) by (destruct old; [done | simpl; lia]).
      lia.
    + specialize (IH 0). rewrite drop_0 in IH. simpl. lia.
Qed.

Lemma length_replace_le old new s :
  old ≠ [] → length old ≤ length new → length s ≤ length (replace old new s).
Proof.
  intros Hold Hle. pose proof (length_replace old new s Hold) as H'.
  pose proof (Nat.mul_le_mono_l _ _ (count old s) Hle). lia.
Qed.

Lemma length_replace_lt old new s :
  old ≠ [] → length old < length new → occurs old s →
  length s < length (replace old new s).
Proof.
  intros Hold Hlt Hocc. pose proof (length_replace old new s Hold) as H'.
  pose proof (count_occurs old s Hold Hocc) as Hc.
  assert (count old s * length old < count old s * length new)
    by (apply Nat.mul_lt_mono_pos_l; lia).
  lia.
Qed.

(** A text with a single match. *)
Lemma replace_unique old new u v :
  old ≠ [] →
  (∀ i, occ_at old (u ++ old ++ v) i → i = length u) →
  replace old new (u ++ old ++ v) = u ++ new ++ v.
Proof.
  intros Hold Huniq.
  rewrite replace_prefix_free; [|done|].
  - rewrite replace_match by done. do 2 f_equal.
    apply replace_no_occ; [done|]. intros [i Hi].
    assert (length u + length old + i = length u) as Hi'.
    { apply Huniq. intros j Hj.
      rewrite lookup_app_r by lia. rewrite lookup_app_r by lia.
      rewrite <- (Hi j Hj). f_equal. lia. }
    destruct old; [done | simpl in Hi'; lia].
  - intros i Hi Hocc. apply Huniq in Hocc. lia.
Qed.

Lemma count_unique old u v :
  old ≠ [] →
  (∀ i, occ_at old (u ++ old ++ v) i → i = length u) →
  count old (u ++ old ++ v) = 1.
Proof.
  intros Hold Huniq.
  rewrite count_prefix_free.
  - rewrite count_match by done. f_equal.
    apply count_no_occ. intros [i Hi].
    assert (length u + length old + i = length u) as Hi'.
    { apply Huniq. intros j Hj.
      rewrite lookup_app_r by lia. rewrite lookup_app_r by lia.
      rewrite <- (Hi j Hj). f_equal. lia. }
    destruct old; [done | simpl in Hi'; lia].
  - intros i Hi Hocc. apply Huniq in Hocc. lia.
Qed.

(** Where [old] is found, [new] is found afterwards. *)
Lemma replace_occurs old new s :
  old ≠ [] → occurs old s → occurs new (replace old new s).
Proof.
  intros Hold. induction s as [|c s IH] using drop_ind.
  - intros [i Hi]. by apply occ_at_nil in Hi.
  - intros [i Hi]. rewrite replace_cons by done.
    destruct (starts_with old (c :: s)) eqn:Hs.
    + exists 0. apply (occ_at_app_l new [] _).
    + destruct i as [|i]; [apply starts_with_occ in Hi; congruence|].
      specialize (IH 0). rewrite drop_0 in IH.
      destruct IH as [k Hk]; [by exists i|]. by exists (S k).
Qed.

End ReplaceFacts.

(** [replace] and [count] on small inputs, as Python evaluates them. *)
Example replace_leftmost :
  replace (txt "aa") (txt "b") (txt "aaa") = txt "ba".
Proof. reflexivity. Qed.

Example replace_all_matches :
  replace (txt "ab") (txt "xab") (txt "ab-ab") = txt "xab-xab".
Proof. reflexivity. Qed.

Example replace_empty_pattern :
  replace (txt "") (txt "-") (txt "abc") = txt "-a-b-c-".
Proof. reflexivity. Qed.

Example replace_no_match :
  replace (txt "abc") (txt "x") (txt "ab") = txt "ab".
Proof. reflexivity. Qed.

Example count_non_overlapping : count (txt "aa") (txt "aaaa") = 2.
Proof. reflexivity. Qed.


(** ** Texts cut into pieces *)

Section PiecesFacts.
Context {A : Type} `{EqDecision A}.
Implicit Types (old new q x y : list A) (ps : list (piece A)).

Lemma render_cons (p : piece A) ps : render (p :: ps) = body p ++ render ps.
Proof. done. Qed.

Lemma render_app ps1 ps2 : render (ps1 ++ ps2) = render ps1 ++ render ps2.
Proof. unfold render. by rewrite map_app, concat_app. Qed.

Lemma atoms_app ps1 ps2 : atoms (ps1 ++ ps2) = atoms ps1 ++ atoms ps2.
Proof.
  induction ps1 as [|[f|x] ps1 IH]; simpl; [done | done | by rewrite IH].
Qed.

Lemma length_render ps :
  length (render ps) = fill_length ps + sum_list_with length (atoms ps).
Proof.
  induction ps as [|[f|x] ps IH]; [done | |];
    rewrite render_cons, length_app, IH; simpl; lia.
Qed.

Lemma atoms_subst old new ps :
  atoms (map (subst_piece old new) ps) = map (subst_text old new) (atoms ps).
Proof.
  induction ps as [|[f|x] ps IH]; simpl; [done | done | by rewrite IH].
Qed.

Lemma fill_length_subst old new ps :
  fill_length (map (subst_piece old new) ps) = fill_length ps.
Proof.
  induction ps as [|[f|x] ps IH]; simpl; [done | by rewrite IH | done].
Qed.

Lemma spans_from_shift o k ps :
  spans_from (o + k) ps = (fun sx => (sx.1 + k, sx.2)) <$> spans_from o ps.
Proof.
  revert o; induction ps as [|[f|x] ps IH]; intros o; simpl; [done | |].
  - rewrite <- IH. f_equal; lia.
  - rewrite <- IH. do 2 f_equal; lia.
Qed.

Lemma elem_of_spans_from_shift o k st x ps :
  (st, x) ∈ spans_from (o + k) ps ↔ k ≤ st ∧ (st - k, x) ∈ spans_from o ps.
Proof.
  rewrite spans_from_shift, list_elem_of_fmap. split.
  - intros [[st' x'] [[= -> ->] Hin]]. simpl.
    replace (st' + k - k) with st' by lia. split; [lia | done].
  - intros [Hk Hin]. exists (st - k, x). split; [|done].
    simpl. f_equal. lia.
Qed.

Lemma elem_of_spans_from k st x ps :
  (st, x) ∈ spans_from k ps ↔ k ≤ st ∧ (st - k, x) ∈ spans ps.
Proof. apply (elem_of_spans_from_shift 0 k). Qed.

Lemma spans_from_app o ps1 ps2 :
  spans_from o (ps1 ++ ps2)
  = spans_from o ps1 ++ spans_from (o + length (render ps1)) ps2.
Proof.
  revert o; induction ps1 as [|[f|x] ps1 IH]; intros o; simpl.
  - f_equal. unfold render; simpl. lia.
  - rewrite IH, render_cons, length_app. simpl. do 2 f_equal. lia.
  - rewrite IH, render_cons, length_app. simpl. do 3 f_equal. lia.
Qed.

Lemma spans_from_bounds o ps st x :
  (st, x) ∈ spans_from o ps → o ≤ st ∧ st + length x ≤ o + length (render ps).
Proof.
  revert o; induction ps as [|[f|y] ps IH]; intros o; simpl.
  - by intros ?%elem_of_nil.
  - intros Hin%IH. rewrite render_cons, length_app. simpl. lia.
  - rewrite render_cons, length_app. simpl.
    intros [[= -> ->]|Hin%IH]%elem_of_cons; lia.
Qed.

Lemma spans_from_lookup o ps st x j :
  (st, x) ∈ spans_from o ps → j < length x →
  render ps !! (st - o + j) = x !! j.
Proof.
  revert o; induction ps as [|[f|y] ps IH]; intros o; simpl.
  - by intros ?%elem_of_nil.
  - intros Hin Hj. pose proof (spans_from_bounds _ _ _ _ Hin).
    rewrite render_cons. simpl. rewrite lookup_app_r by lia.
    rewrite <- (IH _ Hin Hj). f_equal. lia.
  - rewrite render_cons. simpl.
    intros [[= -> ->]|Hin]%elem_of_cons Hj.
    + rewrite lookup_app_l by lia. f_equal. lia.
    + pose proof (spans_from_bounds _ _ _ _ Hin).
      rewrite lookup_app_r by lia.
      rewrite <- (IH _ Hin Hj). f_equal. lia.
Qed.

Lemma spans_from_split o ps st x :
  (st, x) ∈ spans_from o ps →
  ∃ u v, render ps = u ++ x ++ v ∧ o + length u = st.
Proof.
  revert o; induction ps as [|[f|y] ps IH]; intros o; simpl.
  - by intros ?%elem_of_nil.
  - intros (u & v & Hr & Hu)%IH. exists (f ++ u), v.
    rewrite render_cons, Hr, length_app. simpl. split; [by rewrite <- app_assoc | lia].
  - intros [[= -> ->]|(u & v & Hr & Hu)%IH]%elem_of_cons.
    + exists [], (render ps). split; [done | simpl; lia].
    + exists (y ++ u), v.
      rewrite render_cons, Hr, length_app. simpl.
      split; [by rewrite <- app_assoc | lia].
Qed.

Lemma elem_of_atoms_spans o ps x :
  x ∈ atoms ps ↔ ∃ st, (st, x) ∈ spans_from o ps.
Proof.
  revert o; induction ps as [|[f|y] ps IH]; intros o; simpl.
  - split; [by intros ?%elem_of_nil | by intros [? ?%elem_of_nil]].
  - apply IH.
  - rewrite elem_of_cons, (IH (o + length y)). split.
    + intros [->|[st Hst]]; [exists o; left | exists st; by right].
    + intros [st [[= -> ->]|Hst]%elem_of_cons]; [by left | right; by exists st].
Qed.

Lemma spans_from_inj o ps st1 st2 x :
  NoDup (atoms ps) →
  (st1, x) ∈ spans_from o ps → (st2, x) ∈ spans_from o ps → st1 = st2.
Proof.
  revert o; induction ps as [|[f|y] ps IH]; intros o; simpl.
  - by intros _ ?%elem_of_nil.
  - apply IH.
  - intros [Hy Hnd]%NoDup_cons H1 H2.
    apply elem_of_cons in H1, H2.
    destruct H1 as [H1|H1], H2 as [H2|H2].
    + congruence.
    + injection H1 as -> ->. destruct Hy.
      apply (elem_of_atoms_spans (o + length y)). by exists st2.
    + injection H2 as -> ->. destruct Hy.
      apply (elem_of_atoms_spans (o + length y)). by exists st1.
    + by apply (IH (o + length y)).
Qed.

(** An occurrence inside an atom is an occurrence in the text. *)
Lemma occ_at_span q ps st x i :
  (st, x) ∈ spans ps → occ_at q x i → q ≠ [] → occ_at q (render ps) (st + i).
Proof.
  intros Hin Hocc Hq j Hj.
  pose proof (occ_at_length _ _ _ Hq Hocc).
  rewrite <- (Hocc j Hj).
  rewrite <- (spans_from_lookup 0 ps st x (i + j) Hin) by lia.
  f_equal. lia.
Qed.

(** An occurrence in the text that lies inside an atom is an
    occurrence in the atom. *)
Lemma occ_at_in_span q ps st x i :
  (st, x) ∈ spans ps → st ≤ i → i + length q ≤ st + length x →
  occ_at q (render ps) i → occ_at q x (i - st).
Proof.
  intros Hin Hst Hend Hocc j Hj.
  rewrite <- (Hocc j Hj).
  rewrite <- (spans_from_lookup 0 ps st x (i - st + j) Hin) by lia.
  f_equal. lia.
Qed.

Lemma sep_tail q (p : piece A) ps : q ≠ [] → sep q (p :: ps) → sep q ps.
Proof.
  intros Hq Hsep i Hocc.
  assert (0 < length q) by (destruct q; [done | simpl; lia]).
  destruct (Hsep (length (body p) + i)) as (st & x & Hin & Hst & Hend).
  { intros j Hj. rewrite render_cons, lookup_app_r by lia.
    rewrite <- (Hocc j Hj). f_equal. lia. }
  unfold spans in Hin. destruct p as [f|y]; simpl in *.
  - apply (elem_of_spans_from_shift 0) in Hin as [Hf Hin].
    exists (st - length f), x. split; [done | lia].
  - apply elem_of_cons in Hin as [[= -> ->]|Hin]; [lia|].
    apply (elem_of_spans_from_shift 0) in Hin as [Hf Hin].
    exists (st - length y), x. split; [done | lia].
Qed.

(** [replace] on a text whose matches are whole atoms rewrites these
    atoms. *)
Lemma replace_render old new ps :
  old ≠ [] → sep old ps →
  (∀ x, x ∈ atoms ps → x = old ∨ ¬ occurs old x) →
  replace old new (render ps) = render (map (subst_piece old new) ps).
Proof.
  intros Hold. induction ps as [|p ps IH]; intros Hsep Hat.
  { by apply replace_nil. }
  assert (0 < length old) by (destruct old; [done | simpl; lia]).
  pose proof (sep_tail _ _ _ Hold Hsep) as Hsep'.
  rewrite render_cons. simpl map. rewrite render_cons.
  destruct p as [f|x]; simpl body.
  - rewrite replace_prefix_free; [|done|].
    + f_equal. apply IH; [done|]. intros x Hx. by apply Hat.
    + intros i Hi Hocc. destruct (Hsep i Hocc) as (st & x & Hin & Hst & _).
      unfold spans in Hin. simpl in Hin.
      apply spans_from_bounds in Hin. lia.
  - unfold subst_text. destruct (decide (x = old)) as [->|Hne].
    + rewrite replace_match by done. f_equal.
      apply IH; [done|]. intros x Hx. apply Hat. by right.
    + rewrite replace_prefix_free; [|done|].
      * f_equal. apply IH; [done|]. intros y Hy. apply Hat. by right.
      * intros i Hi Hocc.
        destruct (Hsep i Hocc) as (st & y & Hin & Hst & Hend).
        unfold spans in Hin. simpl in Hin.
        apply elem_of_cons in Hin as [[= -> ->]|Hin].
        -- destruct (Hat x) as [?|Hno]; [by left | done |].
           apply Hno. exists (i - 0).
           apply (occ_at_in_span old (Atom x :: ps) 0 x i); [by left | lia | lia | done].
        -- apply spans_from_bounds in Hin. lia.
Qed.

End PiecesFacts.

(** ** One replacement keeps the occurrences inside the atoms *)

Section Separation.
Context {A : Type} `{EqDecision A}.
Implicit Types (old new q x y a b : list A) (ps : list (piece A)).

Lemma agree_lookup x y :
  agree x y = true ↔ ∀ j, j < length x → j < length y → x !! j = y !! j.
Proof.
  revert y; induction x as [|c x IH]; intros [|e y]; simpl;
    try (split; [intros _ j; lia | done]).
  destruct (decide (c = e)) as [->|Hne].
  - rewrite IH. split.
    + intros H' [|j] ? ?; [done|]. apply H'; lia.
    + intros H' j ? ?. apply (H' (S j)); lia.
  - split; [done|]. intros H'.
    specialize (H' 0 ltac:(lia) ltac:(lia)). simpl in H'. congruence.
Qed.

Lemma ends_with_lookup x y :
  ends_with x y = true ↔
  length x ≤ length y ∧
  ∀ j, j < length x → y !! (length y - length x + j) = x !! j.
Proof.
  unfold ends_with.
  rewrite andb_true_iff, !bool_decide_eq_true. split.
  - intros [Hle Heq]. split; [done|]. intros j Hj.
    transitivity (drop (length y - length x) y !! j);
      [by rewrite lookup_drop | by rewrite Heq].
  - intros [Hle Hlk]. split; [done|]. apply list_eq. intros j.
    rewrite lookup_drop. destruct (decide (j < length x)) as [Hj|Hj].
    + by apply Hlk.
    + rewrite !lookup_ge_None_2; [done | lia | lia].
Qed.

Lemma left_safe_from_spec t old new j :
  left_safe_from t old new = true → j < length t →
  agree (drop j t) new = true → starts_with (drop j t) old = true.
Proof.
  revert j; induction t as [|c t IH]; intros j; cbn [left_safe_from].
  - simpl. lia.
  - rewrite andb_true_iff. intros [Hhd Htl] Hj Hag. destruct j as [|j].
    + rewrite drop_0 in Hag |- *. by rewrite Hag in Hhd.
    + simpl in Hj. apply IH; [done | lia | done].
Qed.

Lemma left_safe_spec q old new k :
  left_safe q old new = true → 1 ≤ k < length q →
  agree (drop k q) new = true → starts_with (drop k q) old = true.
Proof.
  intros Hall Hk. destruct q as [|c t]; [simpl in Hk; lia|].
  destruct k as [|j]; [lia|]. simpl in Hk.
  apply (left_safe_from_spec t old new j); [exact Hall | lia].
Qed.

Lemma right_safe_from_spec t q old j :
  right_safe_from t q old = true → j < length t →
  starts_with (drop j t) q = true → length (drop j t) < length q →
  ends_with (drop j t) old = true.
Proof.
  revert j; induction t as [|c t IH]; intros j; cbn [right_safe_from].
  - simpl. lia.
  - rewrite andb_true_iff. intros [Hhd Htl] Hj Hsw Hlen. destruct j as [|j].
    + rewrite drop_0 in Hsw, Hlen |- *. rewrite Hsw in Hhd.
      by rewrite bool_decide_true in Hhd.
    + simpl in Hj. apply IH; [done | lia | done | done].
Qed.

Lemma right_safe_spec q old new m :
  right_safe q old new = true → 1 ≤ m < length q →
  ends_with (take m q) new = true → ends_with (take m q) old = true.
Proof.
  unfold right_safe. intros Hall Hm Hew.
  pose proof Hew as Hew'. unfold ends_with in Hew'.
  apply andb_true_iff in Hew' as [Hle Hd].
  apply bool_decide_eq_true in Hle, Hd.
  rewrite length_take in Hle, Hd.
  rewrite <- Hd.
  apply (right_safe_from_spec new q old); [done | lia | |].
  - rewrite Hd. apply starts_with_occ. intros j Hj.
    rewrite length_take in Hj. rewrite lookup_take_lt by lia. done.
  - rewrite Hd, length_take. lia.
Qed.

Lemma spans_middle ps1 y ps2 st x :
  (st, x) ∈ spans (ps1 ++ Atom y :: ps2) ↔
  (st, x) ∈ spans ps1
  ∨ (st = length (render ps1) ∧ x = y)
  ∨ (length (render ps1) + length y ≤ st
     ∧ (st - (length (render ps1) + length y), x) ∈ spans ps2).
Proof.
  unfold spans at 1. rewrite spans_from_app, elem_of_app.
  cbn [spans_from]. change (0 + length (render ps1)) with (length (render ps1)).
  rewrite elem_of_cons, (elem_of_spans_from (length (render ps1) + length y)).
  split.
  - intros [?|[[= -> ->]|?]]; [by left | right; by left | right; by right].
  - intros [?|[[-> ->]|?]]; [by left | right; left; done | right; by right].
Qed.

(** Exchanging the content of one atom. *)
Lemma sep_swap q old new ps1 ps2 :
  q ≠ [] →
  left_safe q old new = true → right_safe q old new = true →
  sep q (ps1 ++ Atom old :: ps2) → sep q (ps1 ++ Atom new :: ps2).
Proof.
  intros Hq Hleft Hright Hsep i Hocc.
  assert (0 < length q) as Hn by (destruct q; [done | simpl; lia]).
  set (a := render ps1) in *. set (b := render ps2) in *.
  assert (render (ps1 ++ Atom new :: ps2) = a ++ new ++ b) as Hnew
    by (by rewrite render_app, render_cons).
  assert (render (ps1 ++ Atom old :: ps2) = a ++ old ++ b) as Hold
    by (by rewrite render_app, render_cons).
  rewrite Hnew in Hocc.
  assert (∀ i', occ_at q (a ++ old ++ b) i' →
            ∃ st x, (st, x) ∈ spans (ps1 ++ Atom old :: ps2)
                    ∧ st ≤ i' ∧ i' + length q ≤ st + length x) as Hsep'.
  { intros i' Hi'. apply Hsep. by rewrite Hold. }
  assert (∀ st x, (st, x) ∈ spans ps1 → st + length x ≤ length a) as Hb1.
  { intros st x Hin. apply spans_from_bounds in Hin. fold a in Hin. lia. }
  destruct (decide (i < length a)) as [Hia|Hia].
  - destruct (decide (i + length q ≤ length a)) as [Hend|Hend].
    + (* inside the text before the atom *)
      destruct (Hsep' i) as (st & x & Hin & Hst & Hen).
      { intros j Hj. rewrite <- (Hocc j Hj).
        rewrite !lookup_app_l by lia. done. }
      apply spans_middle in Hin as [Hin|[[-> ->]|[Hge Hin]]].
      * exists st, x. split; [|done]. apply spans_middle. by left.
      * fold a in Hst. lia.
      * fold a in Hge. lia.
    + (* over the left end of the atom *)
      set (k := length a - i).
      assert (starts_with (drop k q) old = true) as Hsw.
      { apply (left_safe_spec q old new k); [done | lia |].
        apply agree_lookup. intros j Hj1 Hj2.
        rewrite length_drop in Hj1. rewrite lookup_drop.
        rewrite <- (Hocc (k + j)) by lia.
        rewrite lookup_app_r by lia. rewrite lookup_app_l by lia.
        f_equal. lia. }
      pose proof (starts_with_length _ _ Hsw) as Hlen.
      rewrite length_drop in Hlen.
      apply starts_with_occ in Hsw.
      destruct (Hsep' i) as (st & x & Hin & Hst & Hen).
      { intros j Hj.
        destruct (decide (i + j < length a)) as [Hj'|Hj'].
        - rewrite <- (Hocc j Hj). by rewrite !lookup_app_l by lia.
        - rewrite lookup_app_r by lia. rewrite lookup_app_l by lia.
          specialize (Hsw (i + j - length a)).
          rewrite length_drop in Hsw. specialize (Hsw ltac:(lia)).
          simpl in Hsw. rewrite Hsw, lookup_drop. f_equal. lia. }
      apply spans_middle in Hin as [Hin|[[-> ->]|[Hge Hin]]].
      * apply Hb1 in Hin. lia.
      * fold a in Hst. lia.
      * fold a in Hge. lia.
  - destruct (decide (length a + length new ≤ i)) as [Hib|Hib].
    + (* inside the text behind the atom *)
      destruct (Hsep' (i - length new + length old)) as (st & x & Hin & Hst & Hen).
      { intros j Hj. rewrite <- (Hocc j Hj).
        rewrite !lookup_app_r by lia. f_equal. lia. }
      apply spans_middle in Hin as [Hin|[[-> ->]|[Hge Hin]]].
      * apply Hb1 in Hin. lia.
      * fold a in Hen. lia.
      * fold a in Hge, Hin.
        exists (st - length old + length new), x. split; [|lia].
        apply spans_middle. right; right. fold a. split; [lia|].
        replace (st - length old + length new - (length a + length new))
          with (st - (length a + length old)) by lia. done.
    + destruct (decide (i + length q ≤ length a + length new)) as [Hend|Hend].
      * (* inside the new atom *)
        exists (length a), new. split; [|lia].
        apply spans_middle. right; by left.
      * (* over the right end of the atom *)
        set (m := length a + length new - i).
        assert (ends_with (take m q) old = true) as Hew.
        { apply (right_safe_spec q old new m); [done | lia |].
          apply ends_with_lookup. rewrite length_take.
          split; [lia|]. intros j Hj.
          rewrite lookup_take_lt by lia.
          rewrite <- (Hocc j) by lia.
          rewrite lookup_app_r by lia. rewrite lookup_app_l by lia.
          f_equal. lia. }
        apply ends_with_lookup in Hew as [Hlen Hlk].
        rewrite length_take in Hlen, Hlk.
        destruct (Hsep' (length a + length old - m)) as (st & x & Hin & Hst & Hen).
        { intros j Hj.
          destruct (decide (j < m)) as [Hj'|Hj'].
          - rewrite lookup_app_r by lia. rewrite lookup_app_l by lia.
            specialize (Hlk j ltac:(lia)).
            rewrite lookup_take_lt in Hlk by lia.
            rewrite <- Hlk. f_equal. lia.
          - rewrite <- (Hocc j Hj).
            rewrite !lookup_app_r by lia. f_equal. lia. }
        apply spans_middle in Hin as [Hin|[[-> ->]|[Hge Hin]]].
        -- apply Hb1 in Hin. lia.
        -- fold a in Hen. lia.
        -- fold a in Hge. lia.
Qed.

Lemma map_subst_id old new ps :
  old ∉ atoms ps → map (subst_piece old new) ps = ps.
Proof.
  induction ps as [|[f|y] ps IH]; simpl; intros Hx.
  - done.
  - f_equal. by apply IH.
  - apply not_elem_of_cons in Hx as [Hne Hx].
    unfold subst_text at 1. rewrite decide_False by done.
    f_equal. by apply IH.
Qed.

Lemma map_subst_split old new ps :
  NoDup (atoms ps) →
  map (subst_piece old new) ps = ps
  ∨ ∃ ps1 ps2, ps = ps1 ++ Atom old :: ps2
               ∧ map (subst_piece old new) ps = ps1 ++ Atom new :: ps2.
Proof.
  induction ps as [|[f|x] ps IH]; simpl; intros Hnd.
  - by left.
  - destruct (IH Hnd) as [->|(ps1 & ps2 & -> & ->)]; [by left|].
    right. by exists (Fill f :: ps1), ps2.
  - apply NoDup_cons in Hnd as [Hx Hnd].
    destruct (decide (x = old)) as [->|Hne].
    + right. exists [], ps. split; [done|]. simpl. f_equal.
      * unfold subst_text. by rewrite decide_True.
      * by apply map_subst_id.
    + unfold subst_text. rewrite !decide_False by done.
      destruct (IH Hnd) as [->|(ps1 & ps2 & -> & ->)]; [by left|].
      right. by exists (Atom x :: ps1), ps2.
Qed.

Lemma sep_subst q old new ps :
  q ≠ [] → NoDup (atoms ps) →
  left_safe q old new = true → right_safe q old new = true →
  sep q ps → sep q (map (subst_piece old new) ps).
Proof.
  intros Hq Hnd Hl Hr Hsep.
  destruct (map_subst_split old new ps Hnd) as [->|(ps1 & ps2 & -> & ->)];
    [done|].
  by apply (sep_swap q old new).
Qed.

(** A sequence of replacements that passes the check rewrites the
    atoms one after the other. *)
Lemma edits_sound watch es : ∀ ats ps,
  edits_ok watch ats es = true →
  atoms ps ≡ₚ ats →
  (∀ q, q ∈ watch → sep q ps) →
  apply_edits es (render ps) = render (subst_edits es ps)
  ∧ atoms (subst_edits es ps) ≡ₚ subst_texts es ats
  ∧ fill_length (subst_edits es ps) = fill_length ps
  ∧ ∀ q, q ∈ watch → sep q (subst_edits es ps).
Proof.
  induction es as [|[old new] es IH]; intros ats ps Hok Hperm Hsep.
  { done. }
  simpl in Hok.
  apply andb_true_iff in Hok as [Hok Hrest].
  unfold edit_ok in Hok.
  repeat (apply andb_true_iff in Hok as [Hok ?]).
  apply bool_decide_eq_true in Hok.
  match goal with H' : bool_decide (old ∈ watch) = true |- _ =>
    apply bool_decide_eq_true in H'; rename H' into Hin end.
  match goal with H' : bool_decide (NoDup ats) = true |- _ =>
    apply bool_decide_eq_true in H'; rename H' into Hnd end.
  match goal with H' : forallb _ ats = true |- _ =>
    rewrite forallb_forall in H'; rename H' into Hats end.
  match goal with H' : forallb _ watch = true |- _ =>
    rewrite forallb_forall in H'; rename H' into Hw end.
  assert (NoDup (atoms ps)) as Hnd' by (by rewrite Hperm).
  unfold apply_edits, subst_edits, subst_texts. simpl.
  rewrite replace_render; [|done|by apply Hsep|].
  - destruct (IH (map (subst_text old new) ats) (map (subst_piece old new) ps))
      as (IH1 & IH2 & IH3 & IH4).
    + done.
    + rewrite atoms_subst. by apply fmap_Permutation.
    + intros q Hq. specialize (Hw q). rewrite <- list_elem_of_In in Hw.
      specialize (Hw Hq).
      repeat (apply andb_true_iff in Hw as [Hw ?]).
      apply bool_decide_eq_true in Hw.
      apply sep_subst; auto.
    + split; [exact IH1|]. split; [exact IH2|]. split; [|exact IH4].
      unfold subst_edits in IH3. simpl in IH3.
      by rewrite IH3, fill_length_subst.
  - intros x Hx. rewrite Hperm in Hx.
    specialize (Hats x). rewrite <- list_elem_of_In in Hats.
    specialize (Hats Hx). apply orb_true_iff in Hats as [Heq|Hno].
    + left. by apply bool_decide_eq_true in Heq.
    + right. rewrite <- contains_occurs. by destruct (contains old x).
Qed.

End Separation.

(** ** Counting occurrences atom by atom *)

Section Occurrences.
Context {A : Type} `{EqDecision A}.
Implicit Types (old new q x y : list A) (ps : list (piece A)).

Lemma elem_of_positions_from o q d i :
  i ∈ positions_from o q d ↔ ∃ k, i = o + k ∧ k ≤ length d ∧ occ_at q d k.
Proof.
  revert o; induction d as [|c d IH]; intros o; simpl positions_from;
    rewrite elem_of_app.
  - rewrite elem_of_nil. split.
    + intros [Hin|[]]. destruct (starts_with q []) eqn:Hs;
        [|by apply elem_of_nil in Hin].
      apply list_elem_of_singleton in Hin as ->.
      exists 0. split; [lia|]. split; [done|]. by apply starts_with_occ.
    + intros (k & -> & Hk & Hocc). simpl in Hk.
      assert (k = 0) as -> by lia. left.
      apply starts_with_occ in Hocc. rewrite Hocc.
      apply list_elem_of_singleton. lia.
  - rewrite IH. split.
    + intros [Hin|(k & -> & Hk & Hocc)].
      * destruct (starts_with q (c :: d)) eqn:Hs;
          [|by apply elem_of_nil in Hin].
        apply list_elem_of_singleton in Hin as ->.
        exists 0. split; [lia|]. split; [lia|]. by apply starts_with_occ.
      * exists (S k). split; [lia|]. split; [simpl; lia | done].
    + intros ([|k] & -> & Hk & Hocc).
      * left. apply starts_with_occ in Hocc. rewrite Hocc.
        apply list_elem_of_singleton. lia.
      * right. exists k. split; [lia|]. split; [simpl in Hk; lia | done].
Qed.

Lemma elem_of_positions q d i : q ≠ [] → i ∈ positions q d ↔ occ_at q d i.
Proof.
  intros Hq. unfold positions. rewrite elem_of_positions_from. split.
  - by intros (k & -> & _ & Hocc).
  - intros Hocc. exists i. split; [done|]. split; [|done].
    apply occ_at_length in Hocc; [lia | done].
Qed.

Lemma positions_nil q d : q ≠ [] → positions q d = [] → ¬ occurs q d.
Proof.
  intros Hq Hp [i Hi]. apply elem_of_positions in Hi; [|done].
  rewrite Hp in Hi. by apply elem_of_nil in Hi.
Qed.

Lemma positions_occurs q d i : q ≠ [] → i ∈ positions q d → occurs q d.
Proof. intros Hq Hi. exists i. by apply elem_of_positions. Qed.

Lemma positions_once q d i : q ≠ [] → positions q d = [i] → occurs_once q d.
Proof.
  intros Hq Hp. exists i. intros j.
  rewrite <- elem_of_positions, Hp by done. apply list_elem_of_singleton.
Qed.

Lemma positions_length_once q d :
  q ≠ [] → length (positions q d) = 1 → occurs_once q d.
Proof.
  intros Hq Hlen. destruct (positions q d) as [|i [|]] eqn:Hpos; try done.
  by apply (positions_once q d i).
Qed.

Lemma elem_of_atom_occs q (ats : list (list A)) x i :
  (x, i) ∈ atom_occs q ats ↔ x ∈ ats ∧ i ∈ positions q x.
Proof.
  unfold atom_occs. rewrite list_elem_of_bind. split.
  - intros (y & Hin & Hy). apply list_elem_of_fmap in Hin as (k & [= -> ->] & Hk).
    done.
  - intros [Hx Hi]. exists x. split; [|done].
    apply list_elem_of_fmap. by exists i.
Qed.

(** Every occurrence in the text is one of the occurrences inside the
    atoms. *)
Lemma occ_at_atom_occs q ps ats i :
  q ≠ [] → sep q ps → atoms ps ≡ₚ ats → occ_at q (render ps) i →
  ∃ st x, (st, x) ∈ spans ps ∧ st ≤ i ∧ (x, i - st) ∈ atom_occs q ats.
Proof.
  intros Hq Hsep Hperm Hocc.
  destruct (Hsep i Hocc) as (st & x & Hin & Hst & Hend).
  exists st, x. split; [done|]. split; [done|].
  apply elem_of_atom_occs. split.
  - rewrite <- Hperm. apply (elem_of_atoms_spans 0). by exists st.
  - apply elem_of_positions; [done|]. by apply (occ_at_in_span q ps st).
Qed.

Lemma atom_occs_none q ps ats :
  q ≠ [] → sep q ps → atoms ps ≡ₚ ats → atom_occs q ats = [] →
  ¬ occurs q (render ps).
Proof.
  intros Hq Hsep Hperm Hnone [i Hocc].
  destruct (occ_at_atom_occs q ps ats i) as (st & x & _ & _ & Hin); try done.
  rewrite Hnone in Hin. by apply elem_of_nil in Hin.
Qed.

Lemma atom_occs_one q ps ats x off :
  q ≠ [] → sep q ps → atoms ps ≡ₚ ats → NoDup ats →
  atom_occs q ats = [(x, off)] →
  ∃ u v, render ps = u ++ x ++ v
         ∧ ∀ i, occ_at q (render ps) i ↔ i = length u + off.
Proof.
  intros Hq Hsep Hperm Hnd Hone.
  assert ((x, off) ∈ atom_occs q ats) as Hx
    by (rewrite Hone; apply list_elem_of_singleton; done).
  apply elem_of_atom_occs in Hx as [Hx Hoff].
  rewrite <- Hperm in Hx.
  apply (elem_of_atoms_spans 0) in Hx as [st Hst].
  destruct (spans_from_split 0 ps st x Hst) as (u & v & Hr & Hu).
  simpl in Hu. subst st.
  exists u, v. split; [done|]. intros i. split.
  - intros Hocc.
    destruct (occ_at_atom_occs q ps ats i) as (st & y & Hin & Hle & Hy); try done.
    rewrite Hone in Hy. apply list_elem_of_singleton in Hy.
    injection Hy as -> Hi.
    assert (st = length u) as ->.
    { eapply spans_from_inj; [|exact Hin|exact Hst]. by rewrite Hperm. }
    lia.
  - intros ->. apply (occ_at_span q ps (length u) x off); [done| |done].
    by apply elem_of_positions.
Qed.

Lemma atom_occs_any q ps ats x off :
  q ≠ [] → atoms ps ≡ₚ ats → (x, off) ∈ atom_occs q ats →
  occurs q (render ps).
Proof.
  intros Hq Hperm [Hx Hoff]%elem_of_atom_occs.
  rewrite <- Hperm in Hx.
  apply (elem_of_atoms_spans 0) in Hx as [st Hst].
  exists (st + off). apply (occ_at_span q ps st x off); [done| |done].
  by apply elem_of_positions.
Qed.

(** The check [sepb] is sound. *)
Lemma sepb_sep q ps : q ≠ [] → sepb q ps = true → sep q ps.
Proof.
  intros Hq Hb i Hocc. unfold sepb in Hb.
  rewrite forallb_forall in Hb. specialize (Hb i).
  rewrite <- list_elem_of_In, elem_of_positions in Hb by done.
  specialize (Hb Hocc). unfold in_atomb in Hb.
  apply existsb_exists in Hb as ([st x] & Hin & Hb).
  apply andb_true_iff in Hb as [H1 H2].
  apply bool_decide_eq_true in H1, H2. simpl in *.
  exists st, x. by rewrite list_elem_of_In.
Qed.

Lemma occurs_app q u v w : occurs q v → occurs q (u ++ v ++ w).
Proof.
  intros [i Hi]. destruct (decide (q = [])) as [->|Hq].
  { exists 0. intros j Hj. simpl in Hj. lia. }
  exists (length u + i). intros j Hj.
  pose proof (occ_at_length _ _ _ Hq Hi).
  rewrite lookup_app_r by lia. rewrite lookup_app_l by lia.
  rewrite <- (Hi j Hj). f_equal. lia.
Qed.

(** Replacements whose patterns are all absent change nothing. *)
Lemma apply_edits_absent (es : list (list A * list A)) s :
  (∀ e, e ∈ es → e.1 ≠ [] ∧ ¬ occurs e.1 s) → apply_edits es s = s.
Proof.
  induction es as [|e es IH]; intros Hall; [done|].
  unfold apply_edits. simpl.
  destruct (Hall e) as [He Hno]; [by left|].
  rewrite replace_no_occ by done. apply IH.
  intros e' He'. apply Hall. by right.
Qed.

Lemma apply_edits_cons (e : list A * list A) es s :
  apply_edits (e :: es) s = apply_edits es (replace e.1 e.2 s).
Proof. done. Qed.

Lemma apply_edits_app (es1 es2 : list (list A * list A)) s :
  apply_edits (es1 ++ es2) s = apply_edits es2 (apply_edits es1 s).
Proof. apply foldl_app. Qed.

(** No replacement that puts a longer text for a shorter one shortens
    the text. *)
Lemma length_apply_edits (es : list (list A * list A)) s :
  (∀ e, e ∈ es → e.1 ≠ [] ∧ length e.1 ≤ length e.2) →
  length s ≤ length (apply_edits es s).
Proof.
  revert s; induction es as [|e es IH]; intros s Hall; [done|].
  unfold apply_edits. simpl.
  destruct (Hall e) as [He Hle]; [by left|].
  etrans; [by apply (length_replace_le e.1 e.2 s)|].
  apply IH. intros e' He'. apply Hall. by right.
Qed.

End Occurrences.

(** ** Cutting atoms, and [count] atom by atom *)

Section Refinement.
Context {A : Type} `{EqDecision A}.
Implicit Types (q x y : list A) (ps : list (piece A))
  (cut : list A → list (list A)).

Lemma render_atoms (l : list (list A)) : render (Atom <$> l) = concat l.
Proof. induction l as [|x l IH]; [done|]. csimpl. rewrite render_cons. by rewrite IH. Qed.

Lemma atoms_atoms (l : list (list A)) : atoms (Atom <$> l) = l.
Proof. induction l as [|x l IH]; [done|]. csimpl. by rewrite IH. Qed.

Lemma refine_cons cut (p : piece A) ps :
  refine cut (p :: ps) = expand cut p ++ refine cut ps.
Proof. done. Qed.

Lemma render_expand cut (p : piece A) :
  (∀ x, p = Atom x → concat (cut x) = x) →
  render (expand cut p) = body p.
Proof.
  destruct p as [f|x]; simpl; intros Hc.
  - unfold render. simpl. by rewrite app_nil_r.
  - rewrite render_atoms. by apply Hc.
Qed.

Lemma render_refine cut ps :
  (∀ x, x ∈ atoms ps → concat (cut x) = x) →
  render (refine cut ps) = render ps.
Proof.
  induction ps as [|p ps IH]; intros Hc; [done|].
  rewrite refine_cons, render_app, render_cons.
  rewrite render_expand, IH; [done| |].
  - intros x Hx. apply Hc. destruct p; simpl; [done | by right].
  - intros x ->. apply Hc. by left.
Qed.

Lemma atoms_refine cut ps : atoms (refine cut ps) = atoms ps ≫= cut.
Proof.
  induction ps as [|[f|x] ps IH]; [done | |];
    rewrite refine_cons, atoms_app, IH; simpl; [done|].
  by rewrite atoms_atoms.
Qed.

Lemma fill_length_refine cut ps :
  fill_length (refine cut ps) = fill_length ps.
Proof.
  assert (∀ l ps', fill_length ((Atom <$> l) ++ ps') = fill_length ps') as Hat.
  { intros l ps'. induction l as [|x l IHl]; [done|]. by csimpl. }
  induction ps as [|[f|x] ps IH]; [done | |]; rewrite refine_cons; simpl.
  - by rewrite IH.
  - by rewrite Hat.
Qed.

Lemma spans_from_refine cut o ps st x st' y :
  (∀ z, z ∈ atoms ps → concat (cut z) = z) →
  (st, x) ∈ spans_from o ps → (st', y) ∈ spans (Atom <$> cut x) →
  (st + st', y) ∈ spans_from o (refine cut ps).
Proof.
  revert o; induction ps as [|[f|z] ps IH]; intros o Hc Hin Hy;
    cbn [spans_from] in Hin.
  - by apply elem_of_nil in Hin.
  - rewrite refine_cons. cbn [expand app spans_from]. by apply IH.
  - rewrite refine_cons, spans_from_app, elem_of_app.
    cbn [expand]. rewrite render_atoms, Hc by (by left).
    apply elem_of_cons in Hin as [[= -> ->]|Hin].
    + left. apply elem_of_spans_from. split; [lia|].
      by replace (o + st' - o) with st' by lia.
    + right. apply IH; [|done|done]. intros z' Hz'. apply Hc. by right.
Qed.

Lemma sep_refine cut q ps :
  q ≠ [] → sep q ps →
  (∀ x, x ∈ atoms ps → concat (cut x) = x ∧ sep q (Atom <$> cut x)) →
  sep q (refine cut ps).
Proof.
  intros Hq Hsep Hc i Hocc.
  assert (∀ x, x ∈ atoms ps → concat (cut x) = x) as Hc' by (intros; by apply Hc).
  rewrite render_refine in Hocc by done.
  destruct (Hsep i Hocc) as (st & x & Hin & Hst & Hend).
  assert (x ∈ atoms ps) as Hx by (apply (elem_of_atoms_spans 0); by exists st).
  destruct (Hc x Hx) as [Hcx Hsx].
  destruct (Hsx (i - st)) as (st' & y & Hin' & Hst' & Hend').
  { rewrite render_atoms, Hcx. by apply (occ_at_in_span q ps st). }
  exists (st + st'), y. split; [|lia].
  by apply (spans_from_refine cut 0 ps st x).
Qed.

Lemma starts_with_app_l q x r :
  length q ≤ length x → starts_with q (x ++ r) = starts_with q x.
Proof.
  intros Hlen. destruct (starts_with q x) eqn:Hs.
  - apply starts_with_occ. apply starts_with_occ in Hs.
    intros j Hj. rewrite lookup_app_l by (simpl; lia). by apply Hs.
  - destruct (starts_with q (x ++ r)) eqn:Hs'; [|done].
    rewrite <- Hs. symmetry. apply starts_with_occ. apply starts_with_occ in Hs'.
    intros j Hj. rewrite <- (Hs' j Hj). by rewrite lookup_app_l by (simpl; lia).
Qed.

(** When no occurrence of [q] reaches out of [x], the matches in
    [x ++ r] are those in [x] and those in [r]. *)
Lemma count_app_sep q x r :
  q ≠ [] →
  (∀ i, i < length x → occ_at q (x ++ r) i → i + length q ≤ length x) →
  count q (x ++ r) = count q x + count q r.
Proof.
  intros Hq. induction x as [|c x IH] using drop_ind; intros Hin; [done|].
  assert (0 < length q) by (destruct q; [done | simpl; lia]).
  change ((c :: x) ++ r) with (c :: (x ++ r)). rewrite !count_cons.
  destruct (starts_with q (c :: x ++ r)) eqn:Hs.
  - pose proof Hs as Hocc. apply starts_with_occ in Hocc.
    apply Hin in Hocc; [|simpl; lia]. simpl in Hocc.
    change (c :: x ++ r) with ((c :: x) ++ r) in Hs.
    rewrite starts_with_app_l in Hs by (simpl; lia). rewrite Hs.
    rewrite drop_app_le by lia. rewrite IH; [simpl; lia|].
    intros i Hi Hocc'. rewrite length_drop in Hi. rewrite length_drop.
    assert (S (length q - 1 + i) + length q ≤ length (c :: x)) as Hb.
    { apply Hin; [simpl; lia|].
      intros j Hj. rewrite <- (Hocc' j Hj).
      change ((c :: x) ++ r) with (c :: (x ++ r)). simpl.
      rewrite <- drop_app_le by lia. rewrite lookup_drop. f_equal. lia. }
    simpl in Hb. lia.
  - assert (starts_with q (c :: x) = false) as ->.
    { destruct (starts_with q (c :: x)) eqn:Hs'; [|done].
      rewrite <- Hs. symmetry.
      change (c :: x ++ r) with ((c :: x) ++ r).
      rewrite starts_with_app_l; [done|]. by apply starts_with_length. }
    specialize (IH 0). rewrite drop_0 in IH. apply IH.
    intros i Hi Hocc'.
    assert (S i + length q ≤ length (c :: x)) as Hb
      by (apply Hin; [simpl; lia | done]).
    simpl in Hb. lia.
Qed.

Lemma count_render q ps :
  q ≠ [] → sep q ps →
  count q (render ps) = sum_list_with (count q) (atoms ps).
Proof.
  intros Hq. induction ps as [|p ps IH]; intros Hsep; [done|].
  pose proof (sep_tail _ _ _ Hq Hsep) as Hsep'.
  assert (0 < length q) by (destruct q; [done | simpl; lia]).
  rewrite render_cons. destruct p as [f|x]; simpl.
  - rewrite count_prefix_free; [by apply IH|].
    intros i Hi Hocc. destruct (Hsep i Hocc) as (st & x & Hin & Hst & _).
    unfold spans in Hin. simpl in Hin.
    apply spans_from_bounds in Hin. lia.
  - rewrite count_app_sep, IH; [done|done|done|].
    intros i Hi Hocc. destruct (Hsep i Hocc) as (st & y & Hin & Hst & Hend).
    unfold spans in Hin. simpl in Hin.
    apply elem_of_cons in Hin as [[= -> ->]|Hin]; [lia|].
    apply spans_from_bounds in Hin. lia.
Qed.

End Refinement.

(** ** Cutting a text at given occurrences *)

Section Cutting.
Context {A : Type} `{EqDecision A}.
Implicit Types (q x y s : list A) (ps : list (piece A))
  (occs : list (nat * list A)).

Lemma atoms_spans o ps : atoms ps = (spans_from o ps).*2.
Proof.
  revert o; induction ps as [|[f|x] ps IH]; intros o; simpl; [done | |].
  - apply IH.
  - f_equal. apply IH.
Qed.

Lemma spans_apart o ps a b :
  a ∈ spans_from o ps → b ∈ spans_from o ps → a ≠ b → apart a b.
Proof.
  revert o; induction ps as [|[f|x] ps IH]; intros o; simpl.
  - by intros ?%elem_of_nil.
  - apply IH.
  - intros [->|Ha]%elem_of_cons [->|Hb]%elem_of_cons Hne; [done | | |].
    + left. destruct b as [st y]. apply spans_from_bounds in Hb.
      unfold ends_before. simpl. lia.
    + right. destruct a as [st y]. apply spans_from_bounds in Ha.
      unfold ends_before. simpl. lia.
    + by apply (IH (o + length x)).
Qed.

Lemma occ_at_take_drop x s k :
  x ≠ [] → occ_at x s k → take (length x) (drop k s) = x.
Proof.
  intros Hx Hocc. pose proof (occ_at_length _ _ _ Hx Hocc) as Hlen.
  apply list_eq. intros j. destruct (decide (j < length x)) as [Hj|Hj].
  - rewrite lookup_take_lt, lookup_drop by lia. by apply Hocc.
  - rewrite lookup_take_ge by lia. by rewrite lookup_ge_None_2 by lia.
Qed.

Lemma build_spec occs : ∀ o s,
  Forall (fun a => a.2 ≠ [] ∧ o ≤ a.1 ∧ occ_at a.2 s (a.1 - o)) occs →
  StronglySorted ends_before occs →
  render (build o occs s) = s ∧ spans_from o (build o occs s) = occs.
Proof.
  induction occs as [|[i x] occs IH]; intros o s Hall Hsort.
  { split; [|done]. unfold render. simpl. by rewrite app_nil_r. }
  apply Forall_cons in Hall as [(Hx & Hi & Hocc) Hall]. simpl in Hx, Hi, Hocc.
  apply StronglySorted_inv in Hsort as [Hsort Hhd].
  pose proof (occ_at_length _ _ _ Hx Hocc) as Hlen.
  destruct (IH (i + length x) (drop (i - o + length x) s)) as [IH1 IH2];
    [|done|].
  { rewrite Forall_forall in Hall, Hhd. apply Forall_forall.
    intros [i' x'] Hin. destruct (Hall _ Hin) as (Hx' & Hi' & Hocc').
    specialize (Hhd _ Hin). unfold ends_before in Hhd. simpl in *.
    split; [done|]. split; [done|]. intros j Hj.
    rewrite lookup_drop, <- (Hocc' j Hj). f_equal. lia. }
  cbn [build]. split.
  - rewrite !render_cons, IH1. simpl.
    rewrite <- (occ_at_take_drop x s (i - o) Hx Hocc) at 1.
    rewrite <- drop_drop, take_drop. by rewrite take_drop.
  - cbn [spans_from]. rewrite length_take.
    replace (o + (i - o) `min` length s) with i by lia.
    by rewrite IH2.
Qed.

(** Occurrences that lie apart can be put in order. *)
Lemma apart_sorted occs :
  NoDup occs → Forall (fun a => a.2 ≠ []) occs →
  (∀ a b, a ∈ occs → b ∈ occs → a ≠ b → apart a b) →
  ∃ occs', occs' ≡ₚ occs ∧ StronglySorted ends_before occs'.
Proof.
  intros Hnd Hne Hap.
  assert (Transitive (@starts_before A)) as Htr
    by (intros a b c; unfold starts_before; lia).
  assert (Total (@starts_before A)) as Htot
    by (intros a b; unfold starts_before; lia).
  assert (∀ a b : nat * list A, Decision (starts_before a b)) as Hdec
    by (intros a b; unfold starts_before; apply _).
  exists (merge_sort starts_before occs).
  pose proof (merge_sort_Permutation starts_before occs) as Hperm.
  split; [done|].
  pose proof (StronglySorted_merge_sort starts_before occs) as Hs.
  rewrite <- Hperm in Hnd, Hne.
  assert (∀ a b, a ∈ merge_sort starts_before occs →
                 b ∈ merge_sort starts_before occs → a ≠ b → apart a b) as Hap'
    by (intros a b Ha Hb; apply Hap; by rewrite <- Hperm).
  clear Hperm Hap.
  induction Hs as [|a l Hs IH Hhd]; [constructor|].
  apply NoDup_cons in Hnd as [Ha Hnd].
  apply Forall_cons in Hne as [_ Hne].
  constructor.
  - apply IH; [done | done |]. intros b c Hb Hc. apply Hap'; by right.
  - apply Forall_forall. intros b Hb.
    rewrite Forall_forall in Hhd, Hne.
    specialize (Hhd b Hb). specialize (Hne b Hb).
    destruct (Hap' a b) as [Hab|Hba]; [by left | by right | | done |].
    + intros ->. done.
    + unfold ends_before, starts_before in *.
      destruct (b.2) as [|c y]; [done|]. simpl in Hba. lia.
Qed.

(** A list of chosen witnesses. *)
Lemma choose_occurrences (l : list (list A)) s :
  (∀ p, p ∈ l → occurs_once p s) →
  ∃ occs, occs.*2 = l ∧ Forall (fun a => ∀ j, occ_at a.2 s j ↔ j = a.1) occs.
Proof.
  induction l as [|p l IH]; intros Hall.
  { by exists []. }
  destruct IH as (occs & Hsnd & Hocc).
  { intros q Hq. apply Hall. by right. }
  destruct (Hall p) as [i Hi]; [by left|].
  exists ((i, p) :: occs). split; [by rewrite fmap_cons, Hsnd|].
  by constructor.
Qed.

End Cutting.

(** ** The run on a well-formed project file *)

Lemma patch_apply_edits s : patch s = apply_edits edits s.
Proof. reflexivity. Qed.

Lemma edits_check : edits_ok watched patterns edits = true.
Proof. vm_refl. Qed.

Lemma watched_nonempty q : q ∈ watched → q ≠ [].
Proof.
  revert q. apply Forall_forall.
  vm_decide.
Qed.

Lemma patterns_nonempty p : p ∈ patterns → p ≠ [].
Proof. intros Hp. apply watched_nonempty, elem_of_app. by left. Qed.

Lemma blocks_watched A B : (A, B) ∈ insertions → B ∈ watched.
Proof.
  intros Hin. apply elem_of_app. right.
  apply list_elem_of_fmap. by exists (A, B).
Qed.

Lemma final_atoms_NoDup : NoDup final_atoms.
Proof. vm_decide. Qed.

Lemma patch_render ps :
  atoms ps ≡ₚ patterns → (∀ q, q ∈ watched → sep q ps) →
  patch (render ps) = render (subst_edits edits ps)
  ∧ atoms (subst_edits edits ps) ≡ₚ final_atoms
  ∧ fill_length (subst_edits edits ps) = fill_length ps
  ∧ ∀ q, q ∈ watched → sep q (subst_edits edits ps).
Proof.
  intros Hperm Hsep. rewrite patch_apply_edits.
  by apply (edits_sound watched edits patterns ps edits_check).
Qed.

(** Each block sits once in the atoms of the result, in front of its
    marker. *)
Lemma insertions_check A B :
  (A, B) ∈ insertions → atom_occs B final_atoms = [(B ++ A, 0)].
Proof.
  revert A B.
  cut (Forall (fun ab => atom_occs ab.2 final_atoms = [(ab.2 ++ ab.1, 0)])
         insertions).
  { intros H' A B Hin. by apply (proj1 (Forall_forall _ _) H' (A, B)). }
  vm_decide.
Qed.

(** Each marker is still there after the run, behind its block. *)
Lemma markers_check A B :
  (A, B) ∈ insertions → (B ++ A, length B) ∈ atom_occs A final_atoms.
Proof.
  revert A B.
  cut (Forall (fun ab => (ab.2 ++ ab.1, length ab.2) ∈ atom_occs ab.1 final_atoms)
         insertions).
  { intros H' A B Hin. by apply (proj1 (Forall_forall _ _) H' (A, B)). }
  vm_decide.
Qed.

Lemma markers_watched A B : (A, B) ∈ insertions → A ∈ watched.
Proof.
  revert A B.
  cut (Forall (fun ab => ab.1 ∈ watched) insertions).
  { intros H' A B Hin. by apply (proj1 (Forall_forall _ _) H' (A, B)). }
  vm_decide.
Qed.

Lemma vanishing_check q :
  q ∈ vanishing → q ∈ watched ∧ atom_occs q final_atoms = [].
Proof.
  revert q. apply Forall_forall.
  vm_decide.
Qed.

Lemma attributes_check :
  old_target_attributes ∈ watched
  ∧ atom_occs old_target_attributes final_atoms = [(new_target_attributes, 0)].
Proof. vm_decide. Qed.

Lemma new_blocks_check :
  Forall (fun e => e.2 ∈ final_atoms) replacements.
Proof. vm_decide. Qed.

Lemma final_lengths_check :
  sum_list_with length final_atoms
  = sum_list_with length patterns + sum_list_with length blocks
    + sum_list_with delta replacements.
Proof. vm_refl. Qed.
Lemma patterns_NoDup : NoDup patterns.
Proof. vm_decide. Qed.

Lemma patterns_atom_occs p : p ∈ patterns → atom_occs p patterns = [(p, 0)].
Proof. revert p. apply Forall_forall. vm_decide. Qed.

(** A text cut in this way holds every pattern exactly once and none
    of the blocks. *)
Lemma pieced_patterns_once s :
  pieced s →
  (∀ p, p ∈ patterns → occurs_once p s ∧ count p s = 1)
  ∧ (∀ b, b ∈ blocks → ¬ occurs b s).
Proof.
  intros (ps & -> & Hperm & Hsep).
  pose proof patterns_NoDup as Hnd.
  split.
  - intros p Hp.
    pose proof (patterns_atom_occs p Hp) as Hone.
    assert (p ∈ watched) as Hw by (apply elem_of_app; by left).
    pose proof (watched_nonempty p Hw) as Hne.
    destruct (atom_occs_one p ps patterns p 0) as (u & v & Hr & Hocc); auto.
    assert (∀ i, occ_at p (render ps) i ↔ i = length u) as Hocc'.
    { intros i. rewrite Hocc. lia. }
    split; [by exists (length u)|].
    rewrite Hr. apply count_unique; [done|].
    intros i Hi. apply Hocc'. by rewrite Hr.
  - intros b Hb.
    assert (atom_occs b patterns = []) as Hnone.
    { revert b Hb. apply Forall_forall. vm_decide. }
    assert (b ∈ watched) as Hw by (apply elem_of_app; by right).
    apply (atom_occs_none b ps patterns); auto using watched_nonempty.
Qed.

Lemma pieced_well_formed s : pieced s → well_formed s.
Proof.
  intros Hp. destruct (pieced_patterns_once s Hp) as [HE HN].
  split; [intros p Hin; by apply HE|]. split; [|done].
  destruct Hp as (ps & -> & Hperm & Hsep).
  intros p p' i i' Hin Hin' Hne Hocc Hocc'.
  assert (∀ q j, q ∈ patterns → occ_at q (render ps) j → (j, q) ∈ spans ps) as Hsp.
  { intros q j Hq Hj.
    assert (q ∈ watched) as Hw by (apply elem_of_app; by left).
    destruct (occ_at_atom_occs q ps patterns j) as (st & x & Hx & Hst & Hat);
      auto using watched_nonempty.
    rewrite (patterns_atom_occs q Hq) in Hat.
    apply list_elem_of_singleton in Hat. injection Hat as -> Hj'.
    by replace j with st by lia. }
  destruct (spans_apart 0 ps (i, p) (i', p')) as [H'|H'];
    [by apply Hsp | by apply Hsp | congruence | by left | by right].
Qed.

Lemma well_formed_pieced s : well_formed s → pieced s.
Proof.
  intros (HE & HD & HN).
  destruct (choose_occurrences patterns s HE) as (occs & Hsnd & Hocc).
  rewrite Forall_forall in Hocc.
  assert (∀ a, a ∈ occs → a.2 ∈ patterns) as Hpat.
  { intros a Ha. rewrite <- Hsnd. apply list_elem_of_fmap. by exists a. }
  destruct (apart_sorted occs) as (occs' & Hperm & Hsort).
  - apply (NoDup_fmap_1 snd). rewrite Hsnd. apply patterns_NoDup.
  - apply Forall_forall. intros a Ha. by apply patterns_nonempty, Hpat.
  - intros a b Ha Hb Hne.
    assert (occ_at a.2 s a.1) as Hoa by (by apply Hocc).
    assert (occ_at b.2 s b.1) as Hob by (by apply Hocc).
    apply (HD a.2 b.2 a.1 b.1); auto.
    intros Heq. apply Hne. destruct a as [i x], b as [j y]. simpl in *.
    subst y. f_equal. by apply (Hocc (j, x) Hb).
  - destruct (build_spec occs' 0 s) as [Hr Hs]; [|done|].
    { apply Forall_forall. intros a Ha. rewrite Hperm in Ha.
      split; [by apply patterns_nonempty, Hpat|]. split; [lia|].
      rewrite Nat.sub_0_r. by apply Hocc. }
    exists (build 0 occs' s). split; [done|]. split.
    + by rewrite (atoms_spans 0), Hs, Hperm, Hsnd.
    + intros q [Hq|Hq]%elem_of_app i Hi.
      * rewrite Hr in Hi. rewrite <- Hsnd in Hq.
        apply list_elem_of_fmap in Hq as (a & -> & Ha).
        apply (Hocc a Ha) in Hi as ->.
        exists a.1, a.2. split; [|lia].
        unfold spans. rewrite Hs, Hperm. by destruct a.
      * destruct (HN q Hq). exists i. by rewrite <- Hr.
Qed.

(** ** Claims about well-formed project files *)

Lemma block_occurs (s : text) (A B : text) :
  well_formed s → (A, B) ∈ insertions → occurs B (patch s).
Proof.
  intros (ps & -> & Hperm & Hsep)%well_formed_pieced Hin.
  destruct (patch_render ps Hperm Hsep) as (Hp & Hat & _ & _).
  rewrite Hp. apply (atom_occs_any B _ final_atoms (B ++ A) 0); [|done|].
  - by apply watched_nonempty, (blocks_watched A B).
  - rewrite (insertions_check A B Hin). by left.
Qed.

Lemma records_check : edits_ok watched_records patterns edits = true.
Proof. vm_refl. Qed.
Lemma placements_check :
  forallb (fun p => placed final_atoms p.1.2 (p.2 ++ p.1.1)) placements = true.
Proof. vm_refl. Qed.
Lemma placements_edits :
  forallb (fun p => existsb (fun e : text * text =>
                      bool_decide (e.1 = p.1.1)
                      && ends_with (p.1.2 ++ p.2 ++ p.1.1) e.2) edits)
          placements = true.
Proof. vm_refl. Qed.

Lemma records_nonempty q : q ∈ watched_records → q ≠ [].
Proof. revert q. apply Forall_forall. vm_decide. Qed.

Lemma records_placements A R m : (A, R, m) ∈ placements → R ∈ records.
Proof.
  revert A R m.
  cut (Forall (fun p : text * text * text => p.1.2 ∈ records) placements).
  { intros H' A R m Hin. exact (proj1 (Forall_forall _ _) H' (A, R, m) Hin). }
  vm_decide.
Qed.

Lemma placed_spec ats R rest :
  R ≠ [] → placed ats R rest = true →
  ∃ x off, atom_occs R ats = [(x, off)] ∧ x = take off x ++ R ++ rest
           ∧ off ≤ length x.
Proof.
  intros HR. unfold placed.
  destruct (atom_occs R ats) as [|[x off] [|? ?]];
    [discriminate | | discriminate].
  intros Hd%bool_decide_eq_true. exists x, off. split; [reflexivity|]. split.
  - by rewrite <- Hd, take_drop.
  - destruct (decide (off ≤ length x)) as [|Hgt]; [assumption|].
    rewrite drop_ge in Hd by lia. symmetry in Hd.
    apply app_eq_nil in Hd as [-> _]. by destruct HR.
Qed.

Lemma patch_render_records ps :
  atoms ps ≡ₚ patterns → (∀ q, q ∈ watched_records → sep q ps) →
  patch (render ps) = render (subst_edits edits ps)
  ∧ atoms (subst_edits edits ps) ≡ₚ final_atoms
  ∧ ∀ q, q ∈ watched_records → sep q (subst_edits edits ps).
Proof.
  intros Hperm Hsep. rewrite patch_apply_edits.
  destruct (edits_sound watched_records edits patterns ps records_check Hperm Hsep)
    as (H1 & H2 & _ & H4).
  done.
Qed.

Lemma absent_sep (q : text) (ps : list (piece ascii)) :
  ¬ occurs q (render ps) → sep q ps.
Proof. intros Hno i Hi. destruct Hno. by exists i. Qed.

(** C1 (amended): for every well-formed project file (each marker and
    each old block exactly once, no two of these occurrences
    overlapping) that holds none of the thirteen records to insert yet,
    the result of one run contains each of the thirteen records exactly
    once, and the record stands immediately before its marker; only the
    Debug configuration has the Release configuration, which the same
    step inserts, between itself and the marker. *)
Theorem C1_each_block_once_before_its_marker (s : text) (A R m : text) :
  well_formed s → (∀ r, r ∈ records → ¬ occurs r s) →
  (A, R, m) ∈ placements →
  (occurs_once R (patch s) ∧ count R (patch s) = 1)
  ∧ (∃ u v, patch s = u ++ R ++ m ++ A ++ v
            ∧ ∀ i, occ_at R (patch s) i ↔ i = length u)
  ∧ (m = [] ∨ (R = cfg_debug ∧ m = cfg_release))
  ∧ ∃ e, e ∈ edits ∧ e.1 = A ∧ ends_with (R ++ m ++ A) e.2 = true.
Proof.
  intros (ps & -> & Hperm & Hsep)%well_formed_pieced Hfresh Hin.
  assert (∀ q, q ∈ watched_records → sep q ps) as Hsep1.
  { intros q [Hq|Hq]%elem_of_app; [by apply Hsep|].
    by apply absent_sep, Hfresh. }
  destruct (patch_render_records ps Hperm Hsep1) as (Hp & Hat & Hsep').
  assert (R ∈ watched_records) as HR.
  { apply elem_of_app. right. by apply (records_placements A R m). }
  pose proof (records_nonempty R HR) as HRne.
  pose proof placements_check as Hpl. rewrite forallb_forall in Hpl.
  specialize (Hpl (A, R, m)). rewrite <- list_elem_of_In in Hpl.
  apply Hpl in Hin as Hx. cbn [fst snd] in Hx.
  apply (placed_spec _ _ _ HRne) in Hx as (x & off & Hone & Hx & Hoff).
  destruct (atom_occs_one R (subst_edits edits ps) final_atoms x off)
    as (u & v & Hr & Hocc); auto using final_atoms_NoDup.
  rewrite <- Hp in Hr, Hocc.
  assert (patch (render ps) = (u ++ take off x) ++ R ++ m ++ A ++ v) as Hr'.
  { rewrite Hr. rewrite Hx at 1. by rewrite <- !app_assoc. }
  assert (∀ i, occ_at R (patch (render ps)) i ↔ i = length (u ++ take off x))
    as Hocc'.
  { intros i. rewrite Hocc, length_app, length_take. lia. }
  split; [split|split; [|split]].
  - by exists (length (u ++ take off x)).
  - rewrite Hr'. apply count_unique; [done|].
    intros i Hi. apply Hocc'. by rewrite Hr'.
  - exists (u ++ take off x), v. split; [exact Hr' | exact Hocc'].
  - revert Hin. clear. revert A R m.
    cut (Forall (fun p : text * text * text =>
                   p.2 = [] ∨ (p.1.2 = cfg_debug ∧ p.2 = cfg_release)) placements).
    { intros H' A R m Hin. exact (proj1 (Forall_forall _ _) H' (A, R, m) Hin). }
    vm_decide.
  - pose proof placements_edits as Hpe. rewrite forallb_forall in Hpe.
    specialize (Hpe (A, R, m)). rewrite <- list_elem_of_In in Hpe.
    apply Hpe, existsb_exists in Hin as (e & He & Hb).
    apply andb_true_iff in Hb as [Hb1 Hb2]. apply bool_decide_eq_true in Hb1.
    exists e. split; [by apply list_elem_of_In|]. split; [exact Hb1 | exact Hb2].
Qed.


Lemma minimal_well_formed : well_formed minimal_project.
Proof.
  apply pieced_well_formed. exists minimal_pieces. split; [done|]. split.
  - vm_decide.
  - intros q Hq. apply sepb_sep; [by apply watched_nonempty|].
    revert q Hq. apply Forall_forall.
    vm_decide.
Qed.

Lemma minimal_fresh :
  (∀ r, r ∈ records → ¬ occurs r minimal_project)
  ∧ ¬ occurs widget_attributes minimal_project.
Proof.
  assert (Forall (fun r => contains r minimal_project ≠ true)
            (widget_attributes :: records)) as Hall by vm_decide.
  rewrite Forall_forall in Hall. split.
  - intros r Hr. rewrite <- contains_occurs. apply Hall. by right.
  - rewrite <- contains_occurs. apply Hall. by left.
Qed.

Lemma C1_each_block_once_before_its_marker_witness :
  well_formed minimal_project
  ∧ (∀ r, r ∈ records → ¬ occurs r minimal_project)
  ∧ (end_XCBuildConfiguration, cfg_debug, cfg_release) ∈ placements
  ∧ occurs_once cfg_debug (patch minimal_project)
  ∧ count cfg_debug (patch minimal_project) = 1
  ∧ ∃ u v, patch minimal_project
           = u ++ cfg_debug ++ cfg_release ++ end_XCBuildConfiguration ++ v
           ∧ ∀ i, occ_at cfg_debug (patch minimal_project) i ↔ i = length u.
Proof.
  assert ((end_XCBuildConfiguration, cfg_debug, cfg_release) ∈ placements) as Hin.
  { apply (bool_decide_unpack _). vm_compute. exact I. }
  split; [exact minimal_well_formed|].
  split; [exact (proj1 minimal_fresh)|]. split; [exact Hin|].
  destruct (C1_each_block_once_before_its_marker
              minimal_project end_XCBuildConfiguration cfg_debug cfg_release
              minimal_well_formed (proj1 minimal_fresh) Hin)
    as ((H1 & H2) & H3 & _).
  split; [exact H1|]. split; [exact H2 | exact H3].
Defined.

(** C1 as stated fails.  In [overlapping_project] every marker and
    every old block occurs exactly once and no block to insert is
    present, yet the run never inserts the PBXFileReference entry,
    because step 1 splits the end marker of that section.  In
    [prepatched_project] all of them occur exactly once as well, and the
    result holds the PBXBuildFile entry twice.  In [unmarked_project]
    every section-end marker and every old block occurs exactly once,
    and the result has no PBXCopyFilesBuildPhase section. *)
Lemma C1_counterexample_overlapping_markers :
  ((∀ p, p ∈ patterns →
         occurs_once p overlapping_project ∧ count p overlapping_project = 1)
   ∧ (∀ b, b ∈ blocks → ¬ occurs b overlapping_project)
   ∧ ¬ occurs file_ref (patch overlapping_project)
   ∧ count file_ref (patch overlapping_project) = 0)
  ∧ ((∀ p, p ∈ patterns →
           occurs_once p prepatched_project ∧ count p prepatched_project = 1)
     ∧ count build_file_entry (patch prepatched_project) = 2)
  ∧ ((∀ A B, (A, B) ∈ end_insertions →
             occurs_once A unmarked_project ∧ count A unmarked_project = 1)
     ∧ (∀ o n, (o, n) ∈ replacements →
               occurs_once o unmarked_project ∧ count o unmarked_project = 1)
     ∧ ¬ occurs copy_phase (patch unmarked_project)).
Proof.
  assert (∀ (d : text) (l : list text),
            Forall (fun p => p ≠ [] ∧ length (positions p d) = 1 ∧ count p d = 1) l →
            ∀ p, p ∈ l → occurs_once p d ∧ count p d = 1) as Honce.
  { intros d l Hall p Hp.
    destruct (proj1 (Forall_forall _ _) Hall p Hp) as (Hne & Hi & Hc).
    split; [by apply positions_length_once | exact Hc]. }
  split; [|split].
  - split; [apply Honce; vm_decide|].
    assert (Forall (fun b => b ≠ [] ∧ positions b overlapping_project = []) blocks)
      as H2 by vm_decide.
    assert (file_ref ≠ [] ∧ positions file_ref (patch overlapping_project) = [])
      as [Hf H3] by vm_decide.
    split; [|split].
    + intros b Hb. destruct (proj1 (Forall_forall _ _) H2 b Hb) as [Hne Hnil].
      by apply positions_nil.
    + by apply positions_nil.
    + by apply count_no_occ, positions_nil.
  - split; [apply Honce; vm_decide | vm_refl].
  - split; [|split].
    + intros A B Hin.
      apply (Honce unmarked_project end_insertions.*1); [vm_decide|].
      apply list_elem_of_fmap. by exists (A, B).
    + intros o n Hin.
      apply (Honce unmarked_project replacements.*1); [vm_decide|].
      apply list_elem_of_fmap. by exists (o, n).
    + assert (copy_phase ≠ [] ∧ positions copy_phase (patch unmarked_project) = [])
        as [Hne Hnil] by vm_decide.
      by apply positions_nil.
Qed.

Lemma atom_occurs {A : Type} (x : list A) (ps : list (piece A)) :
  x ∈ atoms ps → occurs x (render ps).
Proof.
  intros [st Hst]%(elem_of_atoms_spans 0).
  destruct (spans_from_split 0 ps st x Hst) as (u & v & -> & _).
  exists (length u). apply occ_at_app_l.
Qed.

(** C6 (amended): for every well-formed project file, so also for the
    minimal one, the result contains the targets list with the new
    target's ID, the Products group with the new product, and the new
    XCConfigurationList, and it is longer than the input by the lengths
    of the twelve inserted blocks plus the length gains of the five
    replaced blocks. *)
Theorem C6_result_contents_and_length (s : text) :
  well_formed s →
  occurs new_targets (patch s)
  ∧ occurs new_products (patch s)
  ∧ occurs cfg_list (patch s)
  ∧ length (patch s)
    = length s + sum_list_with length blocks + sum_list_with delta replacements.
Proof.
  intros Hwf.
  assert (occurs cfg_list (patch s)) as Hcfg.
  { apply (block_occurs s end_XCConfigurationList cfg_list Hwf). vm_decide. }
  apply well_formed_pieced in Hwf as (ps & -> & Hperm & Hsep).
  destruct (patch_render ps Hperm Hsep) as (Hp & Hat & Hfill & Hsep').
  pose proof new_blocks_check as Hnew.
  rewrite Forall_forall in Hnew.
  split; [|split; [|split]].
  - rewrite Hp. apply atom_occurs. rewrite Hat.
    apply (Hnew (old_targets, new_targets)).
    vm_decide.
  - rewrite Hp. apply atom_occurs. rewrite Hat.
    apply (Hnew (old_products, new_products)). by left.
  - exact Hcfg.
  - rewrite Hp, !length_render, Hfill, Hat, Hperm, final_lengths_check. lia.
Qed.

Lemma C6_result_contents_and_length_witness :
  well_formed minimal_project
  ∧ occurs new_targets (patch minimal_project)
  ∧ occurs new_products (patch minimal_project)
  ∧ occurs cfg_list (patch minimal_project)
  ∧ length (patch minimal_project)
    = length minimal_project + sum_list_with length blocks
      + sum_list_with delta replacements.
Proof.
  split; [exact minimal_well_formed|].
  apply (C6_result_contents_and_length minimal_project).
  exact minimal_well_formed.
Defined.

(** Where the new target shows in the three blocks of C6: its ID stands
    in the targets list only; the Products group holds the ID of its
    product, and the configuration list is its own record, which names
    the target. *)
Lemma target_in_new_blocks :
  occurs (ln 4 [ID_TARGET; txt " /* EhDownloadWidget */,"]) new_targets
  ∧ occurs (ln 4 [ID_PRODUCT_REF; txt " /* EhDownloadWidget.appex */,"]) new_products
  ∧ occurs (txt "Build configuration list for PBXNativeTarget " ++ dq
            ++ txt "EhDownloadWidget" ++ dq) cfg_list
  ∧ ¬ occurs ID_TARGET new_products
  ∧ ¬ occurs ID_TARGET cfg_list.
Proof.
  repeat split.
  - apply contains_occurs. vm_refl.
  - apply contains_occurs. vm_refl.
  - apply contains_occurs. vm_refl.
  - rewrite <- contains_occurs. vm_decide.
  - rewrite <- contains_occurs. vm_decide.
Qed.

(** C6 as stated fails.  With all five old blocks in the minimal file
    the length grows by five length gains, not by those of the Products
    group, the root group and the application target alone; with only
    these three old blocks in the file the result has no targets list
    at all. *)
Lemma C6_counterexample_five_blocks :
  well_formed minimal_project
  ∧ length (patch minimal_project)
    ≠ length minimal_project + sum_list_with length blocks
      + (delta (old_products, new_products) + delta (old_root, new_root)
         + delta (old_app_phases, new_app_phases))
  ∧ ¬ occurs (txt "targets = (") (patch three_block_project).
Proof.
  split; [exact minimal_well_formed|]. split.
  - vm_decide.
  - rewrite <- contains_occurs. vm_decide.
Qed.

(** ** The run as a whole *)

Lemma main_ok argv w f :
  fs w !! PBXPROJ_PATH argv = Some f → readable f = true → writable f = true →
  main argv w
  = (inr (),
     World (<[PBXPROJ_PATH argv := File (patch (data f)) true true]> (fs w))
           (stdout w ++ [success_message])).
Proof.
  intros Hf Hr Hw. unfold main, io_bind, read_file, write_file, print.
  rewrite Hf, Hr. cbv beta iota zeta. rewrite Hf, Hw, Hr. reflexivity.
Qed.

Lemma main_inv argv w w' :
  main argv w = (inr (), w') →
  ∃ f, fs w !! PBXPROJ_PATH argv = Some f
       ∧ readable f = true ∧ writable f = true
       ∧ w' = World (<[PBXPROJ_PATH argv := File (patch (data f)) true true]> (fs w))
                    (stdout w ++ [success_message]).
Proof.
  intros Hm. destruct (fs w !! PBXPROJ_PATH argv) as [f|] eqn:Hf.
  - destruct (readable f) eqn:Hr, (writable f) eqn:Hw.
    + exists f. rewrite (main_ok argv w f Hf Hr Hw) in Hm.
      by injection Hm as <-.
    + unfold main, io_bind, read_file, write_file in Hm.
      rewrite Hf, Hr in Hm. cbv beta iota zeta in Hm.
      by rewrite Hf, Hw in Hm.
    + unfold main, io_bind, read_file in Hm. by rewrite Hf, Hr in Hm.
    + unfold main, io_bind, read_file in Hm. by rewrite Hf, Hr in Hm.
  - unfold main, io_bind, read_file in Hm. by rewrite Hf in Hm.
Qed.

Lemma end_insertions_insertions A B :
  (A, B) ∈ end_insertions → (A, B) ∈ insertions.
Proof. unfold end_insertions. by intros [_ ?]%list_elem_of_filter. Qed.

Lemma end_insertions_nonempty A B : (A, B) ∈ end_insertions → A ≠ [].
Proof.
  intros Hin%end_insertions_insertions.
  by apply watched_nonempty, (markers_watched A B).
Qed.

(** C2 (amended): when the text an insertion step receives lacks the
    end marker, the step returns the text as it is and nothing fails:
    the run is the run of the sixteen other steps, and on a file that
    can be read and written it ends normally, writes the text these
    sixteen steps give and prints the success message and nothing
    else. *)
Theorem C2_missing_marker_is_silent (i : nat) (A B s : text) :
  (A, B) ∈ end_insertions →
  edits !! i = Some (A, B ++ A) →
  ¬ occurs A (apply_edits (take i edits) s) →
  replace A (B ++ A) (apply_edits (take i edits) s) = apply_edits (take i edits) s
  ∧ patch s = apply_edits (delete i edits) s
  ∧ ∀ argv w f,
      fs w !! PBXPROJ_PATH argv = Some f → data f = s →
      readable f = true → writable f = true →
      main argv w
      = (inr (),
         World (<[PBXPROJ_PATH argv := File (apply_edits (delete i edits) s) true true]> (fs w))
               (stdout w ++ [success_message])).
Proof.
  intros Hin Hi Hno.
  pose proof (end_insertions_nonempty A B Hin) as HA.
  assert (replace A (B ++ A) (apply_edits (take i edits) s)
          = apply_edits (take i edits) s) as Hstep
    by (by apply replace_no_occ).
  assert (patch s = apply_edits (delete i edits) s) as Hpatch.
  { rewrite patch_apply_edits, delete_take_drop.
    rewrite <- (take_drop_middle edits i (A, B ++ A) Hi) at 1.
    rewrite !apply_edits_app, apply_edits_cons. simpl fst; simpl snd.
    by rewrite Hstep. }
  split; [exact Hstep|]. split; [exact Hpatch|].
  intros argv w f Hf <- Hr Hw. rewrite <- Hpatch. by apply main_ok.
Qed.

Lemma C2_missing_marker_is_silent_witness :
  (end_PBXNativeTarget, native_target) ∈ end_insertions
  ∧ edits !! 8 = Some (end_PBXNativeTarget, native_target ++ end_PBXNativeTarget)
  ∧ ¬ occurs end_PBXNativeTarget (apply_edits (take 8 edits) (render partial_pieces))
  ∧ replace end_PBXNativeTarget (native_target ++ end_PBXNativeTarget)
      (apply_edits (take 8 edits) (render partial_pieces))
    = apply_edits (take 8 edits) (render partial_pieces)
  ∧ patch (render partial_pieces) = apply_edits (delete 8 edits) (render partial_pieces).
Proof.
  assert ((end_PBXNativeTarget, native_target) ∈ end_insertions) as Hin.
  { apply (bool_decide_unpack _). vm_compute. exact I. }
  assert (edits !! 8 = Some (end_PBXNativeTarget, native_target ++ end_PBXNativeTarget))
    as Hi by reflexivity.
  assert (¬ occurs end_PBXNativeTarget
            (apply_edits (take 8 edits) (render partial_pieces))) as Hno.
  { rewrite <- contains_occurs. vm_compute. discriminate. }
  split; [exact Hin|]. split; [exact Hi|]. split; [exact Hno|].
  destruct (C2_missing_marker_is_silent 8 end_PBXNativeTarget native_target
              (render partial_pieces) Hin Hi Hno) as (H1 & H2 & _).
  split; [exact H1 | exact H2].
Defined.

(** C2 as stated fails: [stub_text] holds none of the end markers, and
    the run on it raises nothing; it writes the text back as it was and
    prints the success message. *)
Lemma C2_counterexample_no_error :
  (∀ A B, (A, B) ∈ end_insertions → ¬ occurs A stub_text)
  ∧ main script_argv stub_world
    = (inr (), World (fs stub_world) [success_message]).
Proof.
  split.
  - intros A B Hin. rewrite <- contains_occurs.
    revert A B Hin.
    cut (Forall (fun ab => contains ab.1 stub_text ≠ true) end_insertions).
    { intros H' A B Hin. exact (proj1 (Forall_forall _ _) H' (A, B) Hin). }
    vm_decide.
  - vm_refl.
Qed.

Lemma replacements_nonempty old new : (old, new) ∈ replacements → old ≠ [].
Proof.
  revert old new.
  cut (Forall (fun e => e.1 ≠ []) replacements).
  { intros H' old new Hin. exact (proj1 (Forall_forall _ _) H' (old, new) Hin). }
  vm_decide.
Qed.

(** C3: when the text a whole-block replacement receives does not
    contain its old block, the step returns the text unchanged, the
    run is the run of the sixteen other steps, and it prints the success
    message and nothing else. *)
Theorem C3_absent_old_block_is_skipped (i : nat) (old new s : text) :
  (old, new) ∈ replacements →
  edits !! i = Some (old, new) →
  ¬ occurs old (apply_edits (take i edits) s) →
  replace old new (apply_edits (take i edits) s) = apply_edits (take i edits) s
  ∧ patch s = apply_edits (delete i edits) s
  ∧ ∀ argv w f,
      fs w !! PBXPROJ_PATH argv = Some f → data f = s →
      readable f = true → writable f = true →
      main argv w
      = (inr (),
         World (<[PBXPROJ_PATH argv := File (apply_edits (delete i edits) s) true true]> (fs w))
               (stdout w ++ [success_message])).
Proof.
  intros Hin Hi Hno.
  pose proof (replacements_nonempty old new Hin) as Hold.
  assert (replace old new (apply_edits (take i edits) s)
          = apply_edits (take i edits) s) as Hstep
    by (by apply replace_no_occ).
  assert (patch s = apply_edits (delete i edits) s) as Hpatch.
  { rewrite patch_apply_edits, delete_take_drop.
    rewrite <- (take_drop_middle edits i (old, new) Hi) at 1.
    rewrite !apply_edits_app, apply_edits_cons. simpl fst; simpl snd.
    by rewrite Hstep. }
  split; [exact Hstep|]. split; [exact Hpatch|].
  intros argv w f Hf <- Hr Hw. rewrite <- Hpatch. by apply main_ok.
Qed.

Lemma C3_absent_old_block_is_skipped_witness :
  (old_products, new_products) ∈ replacements
  ∧ edits !! 6 = Some (old_products, new_products)
  ∧ ¬ occurs old_products (apply_edits (take 6 edits) stub_text)
  ∧ replace old_products new_products (apply_edits (take 6 edits) stub_text)
    = apply_edits (take 6 edits) stub_text
  ∧ patch stub_text = apply_edits (delete 6 edits) stub_text.
Proof.
  assert ((old_products, new_products) ∈ replacements) as Hin by (by left).
  assert (edits !! 6 = Some (old_products, new_products)) as Hi by reflexivity.
  assert (¬ occurs old_products (apply_edits (take 6 edits) stub_text)) as Hno.
  { rewrite <- contains_occurs. vm_compute. discriminate. }
  split; [exact Hin|]. split; [exact Hi|]. split; [exact Hno|].
  destruct (C3_absent_old_block_is_skipped 6 old_products new_products stub_text
              Hin Hi Hno) as (H1 & H2 & _).
  split; [exact H1 | exact H2].
Defined.

Lemma subseq_sublist {B : Type} `{EqDecision B} (x y : list B) :
  subseq x y = true → sublist x y.
Proof.
  revert x; induction y as [|b y IH]; intros [|a x]; simpl; try done.
  - intros _. apply sublist_nil_l.
  - destruct (decide (a = b)) as [->|Hne]; intros Hs.
    + apply sublist_skip. by apply IH.
    + apply sublist_cons. by apply IH.
Qed.

(** C5: on every text that contains the old Products block the
    replacement step yields the new block, and the new block is the old
    one, line for line, with the one line for [EhDownloadWidget.appex]
    added at the end of the children list; each old line is found in
    the new block as it was. *)
Theorem C5_products_block_grows_by_one_line (s : text) :
  occurs old_products s →
  occurs new_products (replace old_products new_products s)
  ∧ split_lines new_products
    = take 6 (split_lines old_products)
      ++ (products_line :: drop 6 (split_lines old_products))
  ∧ length (split_lines new_products) = S (length (split_lines old_products))
  ∧ (products_line ∉ split_lines old_products)
  ∧ ∀ l, l ∈ split_lines old_products →
         l ∈ split_lines new_products ∧ occurs l new_products.
Proof.
  intros Hocc. split; [|split; [|split; [|split]]].
  - apply replace_occurs; [|done].
    apply (replacements_nonempty old_products new_products). by left.
  - vm_refl.
  - vm_refl.
  - vm_decide.
  - intros l Hl. rewrite <- contains_occurs. revert l Hl.
    apply Forall_forall.
    vm_decide.
Qed.

Lemma C5_products_block_grows_by_one_line_witness :
  occurs old_products minimal_project
  ∧ occurs new_products (replace old_products new_products minimal_project)
  ∧ split_lines new_products
    = take 6 (split_lines old_products)
      ++ (products_line :: drop 6 (split_lines old_products)).
Proof.
  assert (occurs old_products minimal_project) as Hocc.
  { apply contains_occurs. vm_compute. reflexivity. }
  split; [exact Hocc|].
  destruct (C5_products_block_grows_by_one_line minimal_project Hocc)
    as (H1 & H2 & _).
  split; [exact H1 | exact H2].
Defined.

(** C7: the path is the first argument after the script's name, and
    the fixed default when there is none; the run opens this path for
    reading and, when that succeeds, writes the patched text to the
    same path, replacing what was there. *)
Theorem C7_one_path_read_and_written (argv : list string) (w : world) :
  (∀ prog, PBXPROJ_PATH [prog] = "ehviewer apple.xcodeproj/project.pbxproj"%string)
  ∧ (∀ prog path rest, PBXPROJ_PATH (prog :: path :: rest) = path)
  ∧ main argv w
    = match fs w !! PBXPROJ_PATH argv with
      | None => (inl (FileNotFoundError (PBXPROJ_PATH argv)), w)
      | Some f =>
          if readable f then
            if writable f then
              (inr (),
               World (<[PBXPROJ_PATH argv := File (patch (data f)) true true]> (fs w))
                     (stdout w ++ [success_message]))
            else (inl (PermissionError (PBXPROJ_PATH argv)), w)
          else (inl (PermissionError (PBXPROJ_PATH argv)), w)
      end.
Proof.
  split; [done|]. split; [done|].
  destruct (fs w !! PBXPROJ_PATH argv) as [f|] eqn:Hf.
  - destruct (readable f) eqn:Hr; [destruct (writable f) eqn:Hw|].
    + by apply main_ok.
    + unfold main, io_bind, read_file, write_file.
      rewrite Hf, Hr. cbv beta iota zeta. by rewrite Hf, Hw.
    + unfold main, io_bind, read_file. by rewrite Hf, Hr.
  - unfold main, io_bind, read_file. by rewrite Hf.
Qed.

(** C8: when the file cannot be opened for reading, the run ends with
    the exception; the file system and the output are as before, so
    nothing was written and nothing printed. *)
Theorem C8_read_failure_is_fatal (argv : list string) (w : world) :
  (fs w !! PBXPROJ_PATH argv = None
   ∨ ∃ f, fs w !! PBXPROJ_PATH argv = Some f ∧ readable f = false) →
  ∃ e, main argv w = (inl e, w).
Proof.
  unfold main, io_bind, read_file. intros [Hf|(f & Hf & Hr)].
  - rewrite Hf. by eexists.
  - rewrite Hf, Hr. by eexists.
Qed.

Lemma C8_read_failure_is_fatal_witness :
  fs empty_world !! PBXPROJ_PATH script_argv = None
  ∧ ∃ e, main script_argv empty_world = (inl e, empty_world).
Proof.
  assert (fs empty_world !! PBXPROJ_PATH script_argv = None) as Hf by reflexivity.
  split; [exact Hf|].
  apply (C8_read_failure_is_fatal script_argv empty_world). left. exact Hf.
Defined.

(** C9: the text written depends on the text read and on nothing else:
    two runs that read the same text, whatever the path, the other
    files and the earlier output, write the same text; each prints the
    one success message, also when no step found its pattern and the
    text is written back unchanged. *)
Theorem C9_output_determined_by_input
    (argv1 argv2 : list string) (w1 w2 w1' w2' : world) (f1 f2 : file) :
  fs w1 !! PBXPROJ_PATH argv1 = Some f1 →
  fs w2 !! PBXPROJ_PATH argv2 = Some f2 →
  data f1 = data f2 →
  main argv1 w1 = (inr (), w1') →
  main argv2 w2 = (inr (), w2') →
  data <$> fs w1' !! PBXPROJ_PATH argv1 = Some (patch (data f1))
  ∧ data <$> fs w2' !! PBXPROJ_PATH argv2 = Some (patch (data f1))
  ∧ stdout w1' = stdout w1 ++ [success_message]
  ∧ stdout w2' = stdout w2 ++ [success_message]
  ∧ ((∀ p, p ∈ patterns → ¬ occurs p (data f1)) → patch (data f1) = data f1).
Proof.
  intros Hf1 Hf2 Hd Hm1 Hm2.
  apply main_inv in Hm1 as (g1 & Hg1 & _ & _ & ->).
  apply main_inv in Hm2 as (g2 & Hg2 & _ & _ & ->).
  rewrite Hf1 in Hg1. rewrite Hf2 in Hg2.
  injection Hg1 as <-. injection Hg2 as <-.
  cbn [fs stdout]. rewrite !lookup_insert_eq, <- Hd.
  repeat split.
  intros Hno. rewrite patch_apply_edits. apply apply_edits_absent.
  intros e He. assert (e.1 ∈ patterns) as Hp.
  { apply list_elem_of_fmap. by exists e. }
  split; [by apply patterns_nonempty | by apply Hno].
Qed.

Lemma C9_output_determined_by_input_witness :
  ∃ w1' w2',
    main script_argv stub_world = (inr (), w1')
    ∧ main ["add_widget_target.py"%string] default_world = (inr (), w2')
    ∧ data <$> fs w1' !! PBXPROJ_PATH script_argv = Some (patch stub_text)
    ∧ data <$> fs w2' !! default_path = Some (patch stub_text)
    ∧ stdout w1' = [success_message]
    ∧ stdout w2' = [success_message].
Proof.
  assert (fs stub_world !! PBXPROJ_PATH script_argv = Some (plain_file stub_text))
    as Hf1 by (vm_compute; reflexivity).
  assert (fs default_world !! PBXPROJ_PATH ["add_widget_target.py"%string]
          = Some (plain_file stub_text)) as Hf2 by (vm_compute; reflexivity).
  pose proof (main_ok _ _ _ Hf1 eq_refl eq_refl) as H1.
  pose proof (main_ok _ _ _ Hf2 eq_refl eq_refl) as H2.
  match type of H1 with _ = (_, ?w) => set (w1' := w) in * end.
  match type of H2 with _ = (_, ?w) => set (w2' := w) in * end.
  exists w1', w2'.
  destruct (C9_output_determined_by_input
              script_argv ["add_widget_target.py"%string]
              stub_world default_world w1' w2'
              (plain_file stub_text) (plain_file stub_text))
    as (Ha & Hb & Hc & Hd & _); try assumption; try reflexivity.
  repeat split; assumption.
Defined.

(** C10: the result is never shorter than the input, whatever the
    input: each of the seventeen replacements puts for its pattern
    either the pattern with a block in front of it or a block that has
    all lines of the pattern, in their order, and more. *)
Theorem C10_no_step_removes_text (s : text) :
  length s ≤ length (patch s)
  ∧ ∀ e, e ∈ edits →
         (∃ B, e.2 = B ++ e.1)
         ∨ sublist (split_lines e.1) (split_lines e.2).
Proof.
  assert (Forall (fun e : text * text =>
            (e.1 ≠ [] ∧ length e.1 ≤ length e.2)
            ∧ (ends_with e.1 e.2 = true
               ∨ subseq (split_lines e.1) (split_lines e.2) = true)) edits)
    as Hall.
  { vm_decide. }
  rewrite Forall_forall in Hall. split.
  - rewrite patch_apply_edits. apply length_apply_edits.
    intros e He. by apply Hall.
  - intros e He. destruct (Hall e He) as [_ [Hew|Hss]].
    + left. unfold ends_with in Hew.
      apply andb_true_iff in Hew as [_ Hd]. apply bool_decide_eq_true in Hd.
      exists (take (length e.2 - length e.1) e.2).
      transitivity (take (length e.2 - length e.1) e.2
                    ++ drop (length e.2 - length e.1) e.2);
        [by rewrite take_drop | by rewrite Hd].
    + right. by apply subseq_sublist.
Qed.

(** ** A second run *)

Lemma cut_check x :
  x ∈ final_atoms →
  concat (cut x) = x ∧ ∀ q, q ∈ watched → sep q (Atom <$> cut x).
Proof.
  revert x.
  cut (Forall (fun x => concat (cut x) = x
                 ∧ Forall (fun q => sepb q (Atom <$> cut x) = true) watched)
         final_atoms).
  { intros H' x Hx. destruct (proj1 (Forall_forall _ _) H' x Hx) as [H1 H2].
    split; [exact H1|]. intros q Hq.
    apply sepb_sep; [by apply watched_nonempty|].
    exact (proj1 (Forall_forall _ _) H2 q Hq). }
  vm_decide.
Qed.

Lemma second_check : edits_ok watched second_atoms edits = true.
Proof. vm_refl. Qed.

Lemma twice_check A B :
  (A, B) ∈ insertions → sum_list_with (count B) twice_atoms = 2.
Proof.
  revert A B.
  cut (Forall (fun ab => sum_list_with (count ab.2) twice_atoms = 2) insertions).
  { intros H' A B Hin. exact (proj1 (Forall_forall _ _) H' (A, B) Hin). }
  vm_decide.
Qed.

Lemma patch_twice ps :
  atoms ps ≡ₚ patterns → (∀ q, q ∈ watched → sep q ps) →
  ∃ ps2, patch (patch (render ps)) = render ps2
         ∧ atoms ps2 ≡ₚ twice_atoms
         ∧ ∀ q, q ∈ watched → sep q ps2.
Proof.
  intros Hperm Hsep.
  destruct (patch_render ps Hperm Hsep) as (Hp & Hat & _ & Hsep').
  set (ps' := subst_edits edits ps) in *.
  assert (∀ x, x ∈ atoms ps' → x ∈ final_atoms) as Hfin
    by (intros x Hx; by rewrite <- Hat).
  assert (render (refine cut ps') = render ps') as Hr.
  { apply render_refine. intros x Hx. by apply cut_check, Hfin. }
  destruct (edits_sound watched edits second_atoms (refine cut ps') second_check)
    as (H1 & H2 & _ & H4).
  - rewrite atoms_refine. unfold second_atoms. by rewrite Hat.
  - intros q Hq. apply sep_refine; [by apply watched_nonempty | by apply Hsep' |].
    intros x Hx. destruct (cut_check x (Hfin x Hx)) as [Hc Hs].
    split; [exact Hc | by apply Hs].
  - exists (subst_edits edits (refine cut ps')).
    split; [|split; [exact H2 | exact H4]].
    rewrite Hp, <- Hr, patch_apply_edits. exact H1.
Qed.

Lemma insertions_longer A B :
  (A, B) ∈ insertions → A ≠ [] ∧ length A < length (B ++ A).
Proof.
  revert A B.
  cut (Forall (fun ab => ab.1 ≠ [] ∧ length ab.1 < length (ab.2 ++ ab.1))
         insertions).
  { intros H' A B Hin. exact (proj1 (Forall_forall _ _) H' (A, B) Hin). }
  vm_decide.
Qed.

Lemma edits_longer e : e ∈ edits → e.1 ≠ [] ∧ length e.1 ≤ length e.2.
Proof.
  revert e. apply Forall_forall.
  vm_decide.
Qed.

Lemma attributes_edits_check : edits_ok watched_attributes patterns edits = true.
Proof. vm_refl. Qed.
Lemma attributes_second_check : edits_ok watched_attributes second_atoms edits = true.
Proof. vm_refl. Qed.
Section Adjacent.
Context {A : Type} `{EqDecision A}.
Implicit Types (ps : list (piece A)) (es : list (list A * list A)).

Lemma elem_of_atoms ps (x : list A) : x ∈ atoms ps → Atom x ∈ ps.
Proof.
  induction ps as [|[f|y] ps IH]; simpl.
  - by intros ?%elem_of_nil.
  - intros Hx. right. by apply IH.
  - intros [->|Hx]%elem_of_cons; [by left | right; by apply IH].
Qed.

Lemma subst_edits_app es : ∀ ps1 ps2,
  subst_edits es (ps1 ++ ps2) = subst_edits es ps1 ++ subst_edits es ps2.
Proof.
  induction es as [|[old new] es IH]; intros ps1 ps2; [done|].
  unfold subst_edits in *. simpl. by rewrite map_app, IH.
Qed.

Lemma refine_app cut ps1 ps2 :
  refine cut (ps1 ++ ps2) = refine cut ps1 ++ refine cut ps2.
Proof. unfold refine. apply bind_app. Qed.
End Adjacent.

Lemma attributes_cut_check x :
  x ∈ final_atoms →
  concat (cut x) = x ∧ ∀ q, q ∈ watched_attributes → sep q (Atom <$> cut x).
Proof.
  revert x.
  cut (Forall (fun x => concat (cut x) = x
                 ∧ Forall (fun q => sepb q (Atom <$> cut x) = true)
                          watched_attributes)
         final_atoms).
  { intros H' x Hx. destruct (proj1 (Forall_forall _ _) H' x Hx) as [H1 H2].
    split; [exact H1|]. intros q Hq.
    apply sepb_sep; [|exact (proj1 (Forall_forall _ _) H2 q Hq)].
    revert q Hq. apply Forall_forall. vm_decide. }
  vm_decide.
Qed.

Lemma attributes_nonempty q : q ∈ watched_attributes → q ≠ [].
Proof. revert q. apply Forall_forall. vm_decide. Qed.

Lemma watched_attributes_incl q : q ∈ watched → q ∈ watched_attributes.
Proof. intros Hq. apply elem_of_app. by left. Qed.

(** The second run, on the cut of the first result in which every
    marker and the old block of the target attributes are atoms
    again, for any list of texts to follow that passes the checks. *)
Lemma patch_twice_with (watch : list text) ps :
  edits_ok watch patterns edits = true →
  edits_ok watch second_atoms edits = true →
  (∀ q, q ∈ watch → q ≠ []) →
  (∀ x, x ∈ final_atoms →
        concat (cut x) = x ∧ ∀ q, q ∈ watch → sep q (Atom <$> cut x)) →
  atoms ps ≡ₚ patterns → (∀ q, q ∈ watch → sep q ps) →
  patch (render ps) = render (subst_edits edits ps)
  ∧ atoms (subst_edits edits ps) ≡ₚ final_atoms
  ∧ (∀ q, q ∈ watch → sep q (subst_edits edits ps))
  ∧ patch (patch (render ps))
    = render (subst_edits edits (refine cut (subst_edits edits ps)))
  ∧ atoms (subst_edits edits (refine cut (subst_edits edits ps))) ≡ₚ twice_atoms
  ∧ ∀ q, q ∈ watch →
         sep q (subst_edits edits (refine cut (subst_edits edits ps))).
Proof.
  intros Hok1 Hok2 Hne Hcut Hperm Hsep.
  destruct (edits_sound watch edits patterns ps Hok1 Hperm Hsep)
    as (Hp & Hat & _ & Hsep').
  rewrite <- patch_apply_edits in Hp.
  set (ps' := subst_edits edits ps) in *.
  assert (∀ x, x ∈ atoms ps' → x ∈ final_atoms) as Hfin.
  { intros x Hx. unfold final_atoms. by rewrite <- Hat. }
  assert (render (refine cut ps') = render ps') as Hr.
  { apply render_refine. intros x Hx. by apply Hcut, Hfin. }
  destruct (edits_sound watch edits second_atoms (refine cut ps') Hok2)
    as (H1 & H2 & _ & H4).
  - rewrite atoms_refine. unfold second_atoms, final_atoms. by rewrite Hat.
  - intros q Hq. apply sep_refine; [by apply Hne | by apply Hsep' |].
    intros x Hx. destruct (Hcut x (Hfin x Hx)) as [Hc Hs].
    split; [exact Hc | by apply Hs].
  - split; [exact Hp|]. split; [exact Hat|]. split; [exact Hsep'|].
    split; [|split; [exact H2 | exact H4]].
    rewrite Hp, <- Hr, patch_apply_edits. exact H1.
Qed.

Lemma attributes_split :
  new_target_attributes = old_target_attributes ++ widget_attributes
  ∧ cut new_target_attributes = [old_target_attributes; widget_attributes]
  ∧ subst_edits edits [Atom old_target_attributes; Atom widget_attributes]
    = [Atom new_target_attributes; Atom widget_attributes]
  ∧ new_target_attributes ∈ final_atoms
  ∧ atom_occs old_target_attributes twice_atoms = [(new_target_attributes, 0)]
  ∧ NoDup twice_atoms
  ∧ widget_attributes ≠ [].
Proof.
  split; [vm_refl|]. split; [vm_refl|]. split; [vm_refl|].
  split; [vm_decide|]. split; [vm_refl|]. split; vm_decide.
Qed.

Lemma attributes_counts :
  sum_list_with (count widget_attributes) final_atoms = 1
  ∧ sum_list_with (count widget_attributes) twice_atoms = 2.
Proof. split; vm_refl. Qed.

(** C4 (amended): the run is not idempotent.  For every well-formed
    project file a second run on the result of the first gives another
    text: every marker is still there, once, so every insertion step
    puts its block in a second time; the old blocks of the Products
    group, the root group, the targets list and the application target
    are gone, so these four steps change nothing; the old block of the
    target attributes is still there, once, being the beginning of its
    own replacement, and is replaced again: after the second run it is
    followed by the attributes of the new target twice, and in a file
    that did not hold these attributes they are found once after the
    first run and twice after the second. *)
Theorem C4_second_run_duplicates (s : text) :
  well_formed s →
  patch (patch s) ≠ patch s
  ∧ (∀ A B, (A, B) ∈ insertions →
            occurs_once A (patch s) ∧ count B (patch (patch s)) = 2)
  ∧ (∀ q, q ∈ vanishing → ¬ occurs q (patch s))
  ∧ occurs_once old_target_attributes (patch s)
  ∧ (∃ u v, patch (patch s)
            = u ++ old_target_attributes ++ widget_attributes
                ++ widget_attributes ++ v
            ∧ ∀ i, occ_at old_target_attributes (patch (patch s)) i
                   ↔ i = length u)
  ∧ (¬ occurs widget_attributes s →
     count widget_attributes (patch s) = 1
     ∧ count widget_attributes (patch (patch s)) = 2).
Proof.
  intros (ps & -> & Hperm & Hsep)%well_formed_pieced.
  destruct (patch_render ps Hperm Hsep) as (Hp & Hat & _ & Hsep').
  destruct (patch_twice ps Hperm Hsep) as (ps2 & Hp2 & Hat2 & Hsep2).
  assert (∀ A B, (A, B) ∈ insertions → occurs A (patch (render ps))) as Hmark.
  { intros A B Hin. rewrite Hp.
    apply (atom_occs_any A _ final_atoms (B ++ A) (length B)); [|done|].
    - by apply watched_nonempty, (markers_watched A B).
    - by apply markers_check. }
  split; [|split; [|split; [|split; [|split]]]].
  - intros Heq.
    assert (length (patch (render ps)) < length (patch (patch (render ps)))) as Hlt;
      [|rewrite Heq in Hlt; lia].
    rewrite (patch_apply_edits (patch (render ps))).
    change edits with ((end_PBXBuildFile, build_file_entry ++ end_PBXBuildFile) :: tail edits).
    rewrite apply_edits_cons.
    eapply Nat.lt_le_trans; [|apply length_apply_edits].
    + simpl fst; simpl snd.
      destruct (insertions_longer end_PBXBuildFile build_file_entry) as [Hne Hlt];
        [by left|].
      apply length_replace_lt; [done | done |].
      apply (Hmark _ build_file_entry). by left.
    + intros e He. apply edits_longer.
      change edits with ((end_PBXBuildFile, build_file_entry ++ end_PBXBuildFile) :: tail edits).
      by right.
  - intros A B Hin. split.
    + rewrite Hp.
      pose proof (watched_nonempty A (markers_watched A B Hin)) as HA.
      destruct (atom_occs_one A (subst_edits edits ps) final_atoms (B ++ A) (length B))
        as (u & v & _ & Hocc); auto using final_atoms_NoDup.
      * by apply Hsep', (markers_watched A B).
      * revert A B Hin HA.
        cut (Forall (fun ab => atom_occs ab.1 final_atoms
                               = [(ab.2 ++ ab.1, length ab.2)]) insertions).
        { intros H' A B Hin _. exact (proj1 (Forall_forall _ _) H' (A, B) Hin). }
        vm_decide.
      * by exists (length u + length B).
    + rewrite Hp2, count_render.
      * rewrite Hat2. by apply (twice_check A B).
      * by apply watched_nonempty, (blocks_watched A B).
      * by apply Hsep2, (blocks_watched A B).
  - intros q Hq. destruct (vanishing_check q Hq) as [Hw Hnone].
    rewrite Hp. apply (atom_occs_none q _ final_atoms); auto using watched_nonempty.
  - destruct attributes_check as [Hw Hone]. rewrite Hp.
    destruct (atom_occs_one old_target_attributes (subst_edits edits ps)
                final_atoms new_target_attributes 0)
      as (u & v & _ & Hocc); auto using final_atoms_NoDup, watched_nonempty.
    by exists (length u + 0).
  - destruct attributes_split as (Hnew & Hcut & Hsub & Hfin & Hocc2 & Hnd2 & _).
    destruct attributes_check as [Hw _].
    destruct (patch_twice_with watched ps edits_check second_check
                watched_nonempty cut_check Hperm Hsep)
      as (_ & Hat1 & _ & Hq2 & Hat3 & Hsep3).
    assert (Atom new_target_attributes ∈ subst_edits edits ps) as Hel.
    { apply elem_of_atoms. rewrite Hat1. exact Hfin. }
    apply list_elem_of_split in Hel as (l1 & l2 & Hl).
    pose proof Hq2 as Hq2o. rewrite Hl in Hq2.
    change (Atom new_target_attributes :: l2)
      with ([Atom new_target_attributes] ++ l2) in Hq2.
    rewrite !refine_app in Hq2.
    change (refine cut [Atom new_target_attributes])
      with ((Atom <$> cut new_target_attributes) ++ []) in Hq2.
    rewrite Hcut, app_nil_r in Hq2.
    change (Atom <$> [old_target_attributes; widget_attributes])
      with [Atom old_target_attributes; Atom widget_attributes] in Hq2.
    rewrite !subst_edits_app, Hsub, !render_app in Hq2.
    change (render [Atom new_target_attributes; Atom widget_attributes])
      with (new_target_attributes ++ widget_attributes ++ []) in Hq2.
    rewrite app_nil_r, Hnew, <- !app_assoc in Hq2.
    exists (render (subst_edits edits (refine cut l1))),
           (render (subst_edits edits (refine cut l2))).
    split; [exact Hq2|].
    intros i.
    destruct (atom_occs_one old_target_attributes
                (subst_edits edits (refine cut (subst_edits edits ps)))
                twice_atoms new_target_attributes 0)
      as (u & v & _ & Hocc);
      [by apply watched_nonempty | by apply Hsep3 | exact Hat3 | exact Hnd2
       | exact Hocc2 |].
    rewrite <- Hq2o in Hocc.
    assert (length (render (subst_edits edits (refine cut l1))) = length u + 0)
      as Hlen.
    { apply Hocc. rewrite Hq2. apply occ_at_app_l. }
    rewrite Hocc. lia.
  - intros Hfresh.
    assert (∀ q, q ∈ watched_attributes → sep q ps) as Hsepa.
    { intros q [Hq|Hq]%elem_of_app; [by apply Hsep|].
      apply list_elem_of_singleton in Hq as ->. by apply absent_sep. }
    destruct (patch_twice_with watched_attributes ps attributes_edits_check
                attributes_second_check attributes_nonempty
                attributes_cut_check Hperm Hsepa)
      as (Hq1 & Hat1 & Hsep1 & Hq2 & Hat3 & Hsep3).
    assert (widget_attributes ∈ watched_attributes) as Hin.
    { apply elem_of_app. right. by apply list_elem_of_singleton. }
    destruct attributes_counts as [Hc1 Hc2].
    pose proof (attributes_nonempty _ Hin) as Hne.
    split.
    + rewrite Hq1, count_render; [|exact Hne | by apply Hsep1].
      rewrite Hat1. exact Hc1.
    + rewrite Hq2, count_render; [|exact Hne | by apply Hsep3].
      rewrite Hat3. exact Hc2.
Qed.

Lemma C4_second_run_duplicates_witness :
  well_formed minimal_project
  ∧ patch (patch minimal_project) ≠ patch minimal_project
  ∧ (∀ A B, (A, B) ∈ insertions →
            occurs_once A (patch minimal_project)
            ∧ count B (patch (patch minimal_project)) = 2)
  ∧ (∀ q, q ∈ vanishing → ¬ occurs q (patch minimal_project))
  ∧ occurs_once old_target_attributes (patch minimal_project)
  ∧ (∃ u v, patch (patch minimal_project)
            = u ++ old_target_attributes ++ widget_attributes
                ++ widget_attributes ++ v
            ∧ ∀ i, occ_at old_target_attributes (patch (patch minimal_project)) i
                   ↔ i = length u)
  ∧ ¬ occurs widget_attributes minimal_project
  ∧ count widget_attributes (patch minimal_project) = 1
  ∧ count widget_attributes (patch (patch minimal_project)) = 2.
Proof.
  split; [exact minimal_well_formed|].
  destruct (C4_second_run_duplicates minimal_project minimal_well_formed)
    as (H1 & H2 & H3 & H4 & H5 & H6).
  split; [exact H1|]. split; [exact H2|]. split; [exact H3|].
  split; [exact H4|]. split; [exact H5|].
  split; [exact (proj2 minimal_fresh)|].
  exact (H6 (proj2 minimal_fresh)).
Defined.

(** C4 as stated fails in its last part: after a run on the minimal
    project the old block of the target attributes, one of the
    whole-block replacements, still matches, and the second run puts
    the attributes of the new target in once more. *)
Lemma C4_counterexample_attributes_match_again :
  well_formed minimal_project
  ∧ (old_target_attributes, new_target_attributes) ∈ replacements
  ∧ occurs old_target_attributes (patch minimal_project)
  ∧ count (drop (length old_target_attributes) new_target_attributes)
          (patch minimal_project) = 1
  ∧ count (drop (length old_target_attributes) new_target_attributes)
          (patch (patch minimal_project)) = 2.
Proof.
  split; [exact minimal_well_formed|]. split.
  { vm_decide. }
  split.
  { apply contains_occurs. vm_refl. }
  split; vm_refl.
Qed.

(** ** Replacements in any order *)

Section OrdersFacts.
Context {A : Type} `{EqDecision A}.
Implicit Types (old new x : list A) (es rem : list (list A * list A))
  (ps : list (piece A)) (ats watch : list (list A)).

Lemma rewritten_absent es x : x ∉ es.*1 → rewritten es x = x.
Proof.
  induction es as [|[o n] es IH]; [done|]. csimpl.
  intros [Hne Hx]%not_elem_of_cons. by rewrite decide_False, IH.
Qed.

Lemma rewritten_elem es old new :
  NoDup es.*1 → (old, new) ∈ es → rewritten es old = new.
Proof.
  induction es as [|[o n] es IH]; csimpl.
  - by intros _ ?%elem_of_nil.
  - intros [Ho Hnd]%NoDup_cons [[= -> ->]|Hin]%elem_of_cons.
    + by rewrite decide_True.
    + rewrite decide_False; [by apply IH|].
      intros ->. apply Ho. apply list_elem_of_fmap. by exists (o, new).
Qed.

Lemma rewritten_perm es es' x :
  NoDup es.*1 → es' ≡ₚ es → rewritten es' x = rewritten es x.
Proof.
  intros Hnd Hperm.
  assert (NoDup es'.*1) as Hnd' by (by rewrite Hperm).
  destruct (decide (x ∈ es.*1)) as [Hx|Hx].
  - apply list_elem_of_fmap in Hx as ([o n] & -> & Hin). simpl.
    rewrite (rewritten_elem es o n), (rewritten_elem es' o n); try done.
    by rewrite Hperm.
  - rewrite !rewritten_absent; [done | done |]. by rewrite Hperm.
Qed.

Lemma foldl_subst_absent es x :
  x ∉ es.*1 → foldl (fun y e => subst_text e.1 e.2 y) x es = x.
Proof.
  induction es as [|[o n] es IH]; [done|]. csimpl.
  intros [Hne Hx]%not_elem_of_cons.
  unfold subst_text at 2. rewrite decide_False by done. by apply IH.
Qed.

(** One after the other the replacements make of an atom what the
    table says, as no new text is an old text. *)
Lemma foldl_subst es x :
  NoDup (universe es) →
  foldl (fun y e => subst_text e.1 e.2 y) x es = rewritten es x.
Proof.
  unfold universe. revert x; induction es as [|[o n] es IH]; intros x; [done|].
  csimpl. intros Hnd.
  assert (NoDup (es.*1 ++ es.*2) ∧ n ∉ es.*1) as [Hnd' Hn].
  { apply NoDup_cons in Hnd as [_ Hnd].
    apply NoDup_app in Hnd as (H1 & H2 & H3).
    apply NoDup_cons in H3 as [_ H3].
    split.
    - apply NoDup_app. split; [done|]. split; [|done].
      intros y Hy Hy'. apply (H2 y Hy). by right.
    - intros Hin. apply (H2 n Hin). by left. }
  unfold subst_text at 2. destruct (decide (x = o)) as [->|Hne].
  - by apply foldl_subst_absent.
  - by apply IH.
Qed.

Lemma subst_edits_rewrite es ps :
  NoDup (universe es) → subst_edits es ps = rewrite_piece es <$> ps.
Proof.
  intros Hnd.
  assert (∀ ps, subst_edits es ps
                = (fun p => foldl (fun p e => subst_piece e.1 e.2 p) p es) <$> ps)
    as Hmap.
  { clear. induction es as [|e es IH]; intros ps.
    - unfold subst_edits. simpl. by rewrite list_fmap_id.
    - unfold subst_edits in *. simpl. rewrite IH.
      by rewrite <- list_fmap_compose. }
  rewrite Hmap. apply list_fmap_ext. intros _ [f|x] _.
  - clear. induction es as [|e es IH]; [done|]. apply IH.
  - simpl. rewrite <- (foldl_subst es x Hnd).
    clear. revert x. induction es as [|e es IH]; intros x; [done|]. apply IH.
Qed.

Lemma NoDup_subst old new ats :
  NoDup ats → new ∉ ats → NoDup (map (subst_text old new) ats).
Proof.
  intros Hnd Hnew. apply NoDup_fmap_2_strong; [|done].
  intros x y Hx Hy. unfold subst_text.
  destruct (decide (x = old)) as [->|Hxo], (decide (y = old)) as [->|Hyo];
    try done.
  - intros <-. done.
  - intros ->. done.
Qed.

Lemma fmap_inj_NoDup {B C : Type} (f : B → C) (l : list B) a b :
  NoDup (f <$> l) → a ∈ l → b ∈ l → f a = f b → a = b.
Proof.
  induction l as [|c l IH]; csimpl.
  - by intros _ ?%elem_of_nil.
  - intros [Hc Hnd]%NoDup_cons [->|Ha]%elem_of_cons [->|Hb]%elem_of_cons Heq;
      [done | | | by apply IH].
    + destruct Hc. rewrite Heq. apply list_elem_of_fmap. by exists b.
    + destruct Hc. rewrite <- Heq. apply list_elem_of_fmap. by exists a.
Qed.

(** The order-free check gives the check of [edits_ok] for every
    order and every choice of atoms among the old texts. *)
Lemma static_edits_ok watch es rem : ∀ ats,
  static_ok watch es = true →
  NoDup rem → rem ⊆ es →
  NoDup ats → ats ⊆ universe es →
  (∀ e, e ∈ rem → e.2 ∉ ats) →
  edits_ok watch ats rem = true.
Proof.
  induction rem as [|[old new] rem IH]; intros ats Hst Hnr Hsub Hna Hau Hnew;
    [done|].
  pose proof Hst as Hst'. unfold static_ok in Hst'.
  apply andb_true_iff in Hst' as [Hu Hall].
  apply bool_decide_eq_true in Hu.
  rewrite forallb_forall in Hall.
  assert ((old, new) ∈ es) as Hin by (apply Hsub; by left).
  pose proof (Hall (old, new)) as He.
  rewrite <- list_elem_of_In in He. specialize (He Hin).
  unfold static_edit_ok in He. simpl in He.
  apply andb_true_iff in He as [He Hw].
  apply andb_true_iff in He as [He Hx].
  apply andb_true_iff in He as [He1 He2].
  rewrite forallb_forall in Hx.
  apply NoDup_cons in Hnr as [Hhd Hnr].
  cbn [edits_ok]. apply andb_true_iff. split.
  - unfold edit_ok. rewrite He1, He2, Hw. simpl.
    rewrite bool_decide_true by done. simpl.
    rewrite andb_true_r. apply forallb_forall. intros x Hx'.
    apply list_elem_of_In in Hx'.
    specialize (Hx x). rewrite <- list_elem_of_In in Hx.
    specialize (Hx (Hau x Hx')).
    apply orb_true_iff in Hx as [Hx|Hx]; [|by rewrite Hx, orb_true_r].
    apply orb_true_iff in Hx as [Hx|Hx]; [by rewrite Hx|].
    apply bool_decide_eq_true in Hx as ->.
    destruct (Hnew (old, new)); [by left | done].
  - apply IH; try done.
    + intros e He. apply Hsub. by right.
    + apply NoDup_subst; [done|]. apply (Hnew (old, new)). by left.
    + intros y (x & -> & Hx')%list_elem_of_fmap. unfold subst_text.
      destruct (decide (x = old)); [|by apply Hau].
      apply elem_of_app. right. apply list_elem_of_fmap. by exists (old, new).
    + intros e He (x & Hex & Hx')%list_elem_of_fmap. unfold subst_text in Hex.
      destruct (decide (x = old)) as [->|Hne].
      * assert (e = (old, new)) as ->.
        { apply (fmap_inj_NoDup snd es); [|by apply Hsub; right|done|done].
          unfold universe in Hu. by apply NoDup_app in Hu as (_ & _ & ?). }
        done.
      * apply (Hnew e); [by right|]. by rewrite Hex.
Qed.

Lemma atoms_rewrite es ps :
  atoms (rewrite_piece es <$> ps) = rewritten es <$> atoms ps.
Proof.
  induction ps as [|[f|x] ps IH]; csimpl; [done | done | by rewrite IH].
Qed.

(** On a text whose atoms are old texts, each at most once, the
    replacements in any order rewrite the atoms by the table and
    leave everything else as it is. *)
Lemma any_order_sep watch es es' ps :
  static_ok watch es = true → es' ≡ₚ es →
  NoDup (atoms ps) → atoms ps ⊆ es.*1 →
  (∀ q, q ∈ watch → sep q ps) →
  apply_edits es' (render ps) = render (rewrite_piece es <$> ps)
  ∧ ∀ q, q ∈ watch → sep q (rewrite_piece es <$> ps).
Proof.
  intros Hst Hperm Hnd Hsub Hsep.
  pose proof Hst as Hst'. unfold static_ok in Hst'.
  apply andb_true_iff in Hst' as [Hu _]. apply bool_decide_eq_true in Hu.
  assert (NoDup es.*1 ∧ ∀ x, x ∈ es.*1 → x ∉ es.*2) as [Hn1 Hdis].
  { unfold universe in Hu. apply NoDup_app in Hu as (? & ? & ?). done. }
  assert (NoDup (universe es')) as Hu'.
  { unfold universe. by rewrite Hperm. }
  assert (subst_edits es' ps = rewrite_piece es <$> ps) as Heq.
  { rewrite subst_edits_rewrite by done.
    apply list_fmap_ext. intros _ [f|x] _; [done|]. simpl. f_equal.
    by apply rewritten_perm. }
  destruct (edits_sound watch es' (atoms ps) ps) as (H1 & _ & _ & H4);
    [|done|done|].
  - apply (static_edits_ok watch es); try done.
    + rewrite Hperm. by apply (NoDup_fmap_1 fst).
    + intros e He. by rewrite <- Hperm.
    + intros x Hx. apply elem_of_app. left. by apply Hsub.
    + intros e He Hin. apply (Hdis e.2); [by apply Hsub|].
      apply list_elem_of_fmap. exists e. split; [done|]. by rewrite <- Hperm.
  - rewrite <- Heq. by split.
Qed.

Lemma any_order watch es es' ps :
  static_ok watch es = true → es' ≡ₚ es →
  NoDup (atoms ps) → atoms ps ⊆ es.*1 →
  (∀ q, q ∈ watch → sep q ps) →
  apply_edits es' (render ps) = render (rewrite_piece es <$> ps).
Proof. intros. by apply (any_order_sep watch es es' ps). Qed.

End OrdersFacts.

(** ** More on the run *)

Lemma static_check : static_ok watched edits = true.
Proof. vm_refl. Qed.

(** X1: on a text in which some of the seventeen patterns stand, each
    at most once and apart from one another, and none of the blocks to
    insert, the run puts for every pattern that is there its
    replacement and leaves all other text as it is and where it is; the
    patterns that are absent are passed over. *)
Theorem X1_run_rewrites_patterns_in_place (ps : list (piece ascii)) :
  NoDup (atoms ps) → atoms ps ⊆ patterns →
  (∀ q, q ∈ watched → sep q ps) →
  patch (render ps) = render (rewrite_piece edits <$> ps).
Proof.
  intros Hnd Hsub Hsep. rewrite patch_apply_edits.
  by apply (any_order watched edits edits ps static_check).
Qed.

Lemma partial_pieces_ok :
  NoDup (atoms partial_pieces) ∧ atoms partial_pieces ⊆ patterns
  ∧ ∀ q, q ∈ watched → sep q partial_pieces.
Proof.
  split; [vm_decide|]. split.
  - intros x Hx. revert x Hx. apply Forall_forall. vm_decide.
  - intros q Hq. apply sepb_sep; [by apply watched_nonempty|].
    revert q Hq. apply Forall_forall. vm_decide.
Qed.

Lemma X1_run_rewrites_patterns_in_place_witness :
  NoDup (atoms partial_pieces) ∧ atoms partial_pieces ⊆ patterns
  ∧ patch (render partial_pieces)
    = render (rewrite_piece edits <$> partial_pieces).
Proof.
  destruct partial_pieces_ok as (H1 & H2 & H3).
  split; [exact H1|]. split; [exact H2|].
  exact (X1_run_rewrites_patterns_in_place partial_pieces H1 H2 H3).
Defined.

(** X2: on a well-formed project file the seventeen replacements give
    the same result in every order. *)
Theorem X2_steps_commute (s : text) (es : list (text * text)) :
  well_formed s → es ≡ₚ edits → apply_edits es s = patch s.
Proof.
  intros (ps & -> & Hperm & Hsep)%well_formed_pieced Hes.
  assert (NoDup (atoms ps)) as Hnd by (rewrite Hperm; apply patterns_NoDup).
  assert (atoms ps ⊆ patterns) as Hsub by (intros x Hx; by rewrite <- Hperm).
  rewrite patch_apply_edits.
  rewrite (any_order watched edits es ps static_check Hes Hnd Hsub Hsep).
  by rewrite (any_order watched edits edits ps static_check).
Qed.

Lemma X2_steps_commute_witness :
  well_formed minimal_project ∧ reverse edits ≡ₚ edits
  ∧ apply_edits (reverse edits) minimal_project = patch minimal_project.
Proof.
  split; [exact minimal_well_formed|]. split; [apply reverse_Permutation|].
  apply (X2_steps_commute minimal_project (reverse edits)).
  - exact minimal_well_formed.
  - apply reverse_Permutation.
Defined.

Section ReplaceMore.
Context {A : Type} `{EqDecision A}.
Implicit Types (old new s : list A).

Lemma starts_with_split old s :
  starts_with old s = true → s = old ++ drop (length old) s.
Proof.
  revert s; induction old as [|a old IH]; intros [|b s]; simpl; try done.
  destruct (decide (a = b)) as [->|]; [|done].
  intros Hs. f_equal. by apply IH.
Qed.

(** Where the new text holds the old one as a subsequence, the result
    of [replace] holds the text it was given. *)
Lemma replace_sublist old new s :
  old ≠ [] → sublist old new → sublist s (replace old new s).
Proof.
  intros Hold Hsub. induction s as [|c s IH] using drop_ind.
  - by rewrite replace_nil.
  - rewrite replace_cons by done.
    destruct (starts_with old (c :: s)) eqn:Hs.
    + pose proof (starts_with_split _ _ Hs) as Heq.
      assert (drop (length old) (c :: s) = drop (length old - 1) s) as Hd.
      { destruct old; [done|]. simpl. by rewrite Nat.sub_0_r. }
      rewrite Hd in Heq. rewrite Heq at 1.
      apply sublist_app; [done | apply IH].
    + apply sublist_skip. specialize (IH 0). by rewrite drop_0 in IH.
Qed.

Lemma apply_edits_sublist (es : list (list A * list A)) s :
  (∀ e, e ∈ es → e.1 ≠ [] ∧ sublist e.1 e.2) →
  sublist s (apply_edits es s).
Proof.
  revert s; induction es as [|e es IH]; intros s Hall; [done|].
  rewrite apply_edits_cons. destruct (Hall e) as [He Hsub]; [by left|].
  etrans; [by apply (replace_sublist e.1 e.2 s)|].
  apply IH. intros e' He'. apply Hall. by right.
Qed.

(** Replacements that all lengthen their pattern leave a text as it
    is only when none of the patterns is in it. *)
Lemma apply_edits_fixed (es : list (list A * list A)) s :
  (∀ e, e ∈ es → e.1 ≠ [] ∧ length e.1 < length e.2) →
  apply_edits es s = s → ∀ e, e ∈ es → ¬ occurs e.1 s.
Proof.
  revert s; induction es as [|e es IH]; intros s Hall Hfix e' He'.
  { by apply elem_of_nil in He'. }
  destruct (Hall e) as [He Hlt]; [by left|].
  assert (∀ e, e ∈ es → e.1 ≠ [] ∧ length e.1 ≤ length e.2) as Hle.
  { intros e0 He0. destruct (Hall e0) as [? ?]; [by right|]. split; [done|lia]. }
  rewrite apply_edits_cons in Hfix.
  assert (¬ occurs e.1 s) as Hno.
  { intros Hocc.
    pose proof (length_replace_lt e.1 e.2 s He Hlt Hocc) as H1.
    pose proof (length_apply_edits es (replace e.1 e.2 s) Hle) as H2.
    rewrite Hfix in H2. lia. }
  rewrite replace_no_occ in Hfix by done.
  apply elem_of_cons in He' as [->|He']; [done|].
  apply (IH s); [|done|done]. intros e0 He0. apply Hall. by right.
Qed.

End ReplaceMore.

(** X3: for every input the input is a subsequence of the result: the
    run adds characters and never takes one away or moves it. *)
Theorem X3_input_is_subsequence_of_result (s : text) : sublist s (patch s).
Proof.
  rewrite patch_apply_edits. apply apply_edits_sublist.
  intros e He. revert e He.
  cut (Forall (fun e : text * text => e.1 ≠ [] ∧ subseq e.1 e.2 = true) edits).
  { intros H' e He. destruct (proj1 (Forall_forall _ _) H' e He) as [H1 H2].
    split; [exact H1 | by apply subseq_sublist]. }
  vm_decide.
Qed.

Lemma edits_strictly_longer e :
  e ∈ edits → e.1 ≠ [] ∧ length e.1 < length e.2.
Proof. revert e. apply Forall_forall. vm_decide. Qed.

(** X4: for every input the run gives back the input unchanged exactly
    when none of the seventeen patterns occurs in it. *)
Theorem X4_unchanged_iff_no_pattern (s : text) :
  patch s = s ↔ ∀ p, p ∈ patterns → ¬ occurs p s.
Proof.
  rewrite patch_apply_edits. split.
  - intros Hfix p (e & -> & He)%list_elem_of_fmap.
    by apply (apply_edits_fixed edits s edits_strictly_longer).
  - intros Hno. apply apply_edits_absent. intros e He.
    destruct (edits_strictly_longer e He) as [Hne _]. split; [done|].
    apply Hno, list_elem_of_fmap. by exists e.
Qed.

(** X5: when the file can be read but not opened for writing, the run
    ends with the exception of [open]: the file keeps its text and the
    success message is not printed. *)
Theorem X5_write_failure_is_fatal (argv : list string) (w : world) (f : file) :
  fs w !! PBXPROJ_PATH argv = Some f →
  readable f = true → writable f = false →
  main argv w = (inl (PermissionError (PBXPROJ_PATH argv)), w).
Proof.
  intros Hf Hr Hw. unfold main, io_bind, read_file, write_file.
  rewrite Hf, Hr. cbv beta iota zeta. by rewrite Hf, Hw.
Qed.

Lemma X5_write_failure_is_fatal_witness :
  fs read_only_world !! PBXPROJ_PATH script_argv = Some (File stub_text true false)
  ∧ main script_argv read_only_world
    = (inl (PermissionError "project.pbxproj"), read_only_world).
Proof.
  assert (fs read_only_world !! PBXPROJ_PATH script_argv
          = Some (File stub_text true false)) as Hf by (vm_compute; reflexivity).
  split; [exact Hf|].
  exact (X5_write_failure_is_fatal script_argv read_only_world _ Hf eq_refl eq_refl).
Defined.

(** X6: whatever the outcome, a run touches no file but the one at its
    path, and it neither creates nor removes a file: a path that names
    no file makes the run fail and is not created. *)
Theorem X6_only_the_project_file_changes
    (argv : list string) (w w' : world) (r : exn + ()) :
  main argv w = (r, w') →
  (∀ path, path ≠ PBXPROJ_PATH argv → fs w' !! path = fs w !! path)
  ∧ (∀ path, is_Some (fs w' !! path) ↔ is_Some (fs w !! path)).
Proof.
  intros Hm.
  destruct (fs w !! PBXPROJ_PATH argv) as [f|] eqn:Hf.
  - destruct (readable f) eqn:Hr; [destruct (writable f) eqn:Hw|].
    + rewrite (main_ok argv w f Hf Hr Hw) in Hm. injection Hm as <- <-.
      cbn [fs]. split.
      * intros path Hne. by rewrite lookup_insert_ne.
      * intros path. destruct (decide (path = PBXPROJ_PATH argv)) as [->|Hne].
        -- rewrite lookup_insert_eq, Hf. split; by eexists.
        -- by rewrite lookup_insert_ne.
    + unfold main, io_bind, read_file, write_file in Hm.
      rewrite Hf, Hr in Hm. cbv beta iota zeta in Hm. rewrite Hf, Hw in Hm.
      by injection Hm as <- <-.
    + unfold main, io_bind, read_file in Hm. rewrite Hf, Hr in Hm.
      by injection Hm as <- <-.
  - unfold main, io_bind, read_file in Hm. rewrite Hf in Hm.
    by injection Hm as <- <-.
Qed.

Lemma X6_only_the_project_file_changes_witness :
  ∃ w', main ["add_widget_target.py"%string] default_world = (inr (), w')
        ∧ fs w' !! "README.md"%string = fs default_world !! "README.md"%string
        ∧ (is_Some (fs w' !! "project.pbxproj"%string)
           ↔ is_Some (fs default_world !! "project.pbxproj"%string)).
Proof.
  assert (fs default_world !! PBXPROJ_PATH ["add_widget_target.py"%string]
          = Some (plain_file stub_text)) as Hf by (vm_compute; reflexivity).
  pose proof (main_ok _ _ _ Hf eq_refl eq_refl) as Hm.
  eexists. split; [exact Hm|].
  destruct (X6_only_the_project_file_changes _ _ _ _ Hm) as [H1 H2].
  split; [apply H1; vm_compute; discriminate | apply H2].
Defined.

Lemma rewritten_patterns : rewritten edits <$> patterns = final_atoms.
Proof. vm_refl. Qed.

(** X7: on a text as in X1 a block is in the result exactly when its
    marker was in the input: where the marker is missing the block is
    missing too, and the rest of the run is not affected. *)
Theorem X7_block_inserted_iff_marker_present
    (ps : list (piece ascii)) (A B : text) :
  NoDup (atoms ps) → atoms ps ⊆ patterns →
  (∀ q, q ∈ watched → sep q ps) →
  (A, B) ∈ insertions →
  occurs B (patch (render ps)) ↔ occurs A (render ps).
Proof.
  intros Hnd Hsub Hsep Hin.
  pose proof (markers_watched A B Hin) as HwA.
  pose proof (blocks_watched A B Hin) as HwB.
  assert (A ∈ patterns) as HpA.
  { revert A B Hin HwA HwB.
    cut (Forall (fun ab => ab.1 ∈ patterns) insertions).
    { intros H' A B Hin _ _. exact (proj1 (Forall_forall _ _) H' (A, B) Hin). }
    vm_decide. }
  assert (rewritten edits A = B ++ A) as HrA.
  { revert A B Hin HwA HwB HpA.
    cut (Forall (fun ab => rewritten edits ab.1 = ab.2 ++ ab.1) insertions).
    { intros H' A B Hin _ _ _. exact (proj1 (Forall_forall _ _) H' (A, B) Hin). }
    vm_decide. }
  rewrite patch_apply_edits.
  destruct (any_order_sep watched edits edits ps static_check) as [Hp Hsep'];
    try done.
  rewrite Hp. split.
  - intros [i Hi].
    destruct (Hsep' B HwB i Hi) as (st & y & Hy & Hst & Hend).
    assert (y ∈ rewritten edits <$> atoms ps) as Hy'.
    { rewrite <- atoms_rewrite. apply (elem_of_atoms_spans 0). by exists st. }
    apply list_elem_of_fmap in Hy' as (x & -> & Hx).
    assert ((rewritten edits x, i - st) ∈ atom_occs B final_atoms) as Hocc.
    { apply elem_of_atom_occs. split.
      - rewrite <- rewritten_patterns. apply list_elem_of_fmap.
        exists x. split; [done | by apply Hsub].
      - apply elem_of_positions; [by apply watched_nonempty|].
        by apply (occ_at_in_span B (rewrite_piece edits <$> ps) st). }
    rewrite (insertions_check A B Hin) in Hocc.
    apply list_elem_of_singleton in Hocc. injection Hocc as Hx' _.
    assert (x = A) as ->.
    { apply (fmap_inj_NoDup (rewritten edits) patterns);
        [|by apply Hsub|done|by rewrite HrA].
      rewrite rewritten_patterns. apply final_atoms_NoDup. }
    by apply atom_occurs.
  - intros [i Hi].
    destruct (occ_at_atom_occs A ps (atoms ps) i) as (st & x & Hx & _ & Hocc);
      auto using watched_nonempty.
    apply elem_of_atom_occs in Hocc as [Hxa Hpos].
    assert ((x, i - st) ∈ atom_occs A patterns) as Hocc
      by (apply elem_of_atom_occs; split; [by apply Hsub | done]).
    rewrite (patterns_atom_occs A HpA) in Hocc.
    apply list_elem_of_singleton in Hocc. injection Hocc as -> _.
    assert (B ++ A ∈ atoms (rewrite_piece edits <$> ps)) as Hat.
    { rewrite atoms_rewrite, <- HrA. apply list_elem_of_fmap. by exists A. }
    apply (elem_of_atoms_spans 0) in Hat as [st' Hst'].
    destruct (spans_from_split 0 _ st' (B ++ A) Hst') as (u & v & -> & _).
    exists (length u). rewrite <- app_assoc. apply occ_at_app_l.
Qed.

Lemma X7_block_inserted_iff_marker_present_witness :
  (end_PBXNativeTarget, native_target) ∈ insertions
  ∧ (occurs native_target (patch (render partial_pieces))
     ↔ occurs end_PBXNativeTarget (render partial_pieces))
  ∧ ¬ occurs end_PBXNativeTarget (render partial_pieces).
Proof.
  destruct partial_pieces_ok as (H1 & H2 & H3).
  assert ((end_PBXNativeTarget, native_target) ∈ insertions) as Hin.
  { apply (bool_decide_unpack _). vm_compute. exact I. }
  split; [exact Hin|]. split.
  - exact (X7_block_inserted_iff_marker_present
             partial_pieces end_PBXNativeTarget native_target H1 H2 H3 Hin).
  - rewrite <- contains_occurs. apply (bool_decide_unpack _). vm_compute. exact I.
Defined.
